(** * Residue-numbering reconciliation and region merging (dataset/utility.py)

    A shallow embedding of the interval and coordinate-translation routines
    of [dataset/utility.py]:

      - [convert_to_str]            (token normalizer)
      - [merge_overlapping_tuples]  (interval merger)
      - [consolidate_regions]       (region consolidator)
      - [change_basis], [change_basis2]  (basis converters)
      - [add_residue_positions]
      - [ranges]                    (interval extractor)

    Python integers are unbounded, so they are [Z].  A Python function either
    returns a value or raises; this is the [outcome] monad below.  Lists that
    the source mutates while it iterates over them ([merge_overlapping_tuples])
    are modelled as an explicit live list threaded through the loops.

    Scalars that reach these routines are ints, strings, or a missing value
    (None / NaN); Python floats other than NaN are outside the model.  What the
    builtins [float], [int] do on a scalar is not project code: it is taken
    as an interface ([Builtins]), every general theorem holds for all its
    implementations, and [cpython] gives the implementation used to run the
    examples. *)

From Equations Require Import Equations.
From stdpp Require Import base decidable list sorting strings pretty gmap.
From Stdlib Require Import ZArith Lia Ascii.

Local Open Scope Z_scope.
#[local] Set Warnings "-clear-no-such-hyp".

(** ** Python runtime: exceptions, outcomes, loops, list methods *)

Inductive exn :=
| ValueError
| IndexError
| TypeError
| Exception (msg : string).

Inductive outcome (A : Type) :=
| Returns (a : A)
| Raises (e : exn).
Arguments Returns {A} a.
Arguments Raises {A} e.

Global Instance outcome_ret : MRet outcome := @Returns.
Global Instance outcome_bind : MBind outcome := λ A B f m,
  match m with
  | Returns a => f a
  | Raises e => Raises e
  end.

(** [for x in xs: st = body(st, x)], stopping at the first exception. *)
Fixpoint for_loop {S A} (body : S → A → outcome S) (st : S) (xs : list A)
  : outcome S :=
  match xs with
  | [] => mret st
  | x :: xs' => st' ← body st x; for_loop body st' xs'
  end.

(** [l.remove(y)]: drops the first element equal to [y]; ValueError when
    there is none. *)
Fixpoint list_remove {A} `{EqDecision A} (y : A) (l : list A)
  : outcome (list A) :=
  match l with
  | [] => Raises ValueError
  | z :: l' =>
      if decide (z = y) then mret l'
      else l'' ← list_remove y l'; mret (z :: l'')
  end.

(** [l.index(y)]: position of the first element equal to [y]; ValueError
    when there is none. *)
Fixpoint list_index {A} `{EqDecision A} (y : A) (l : list A) : outcome nat :=
  match l with
  | [] => Raises ValueError
  | z :: l' =>
      if decide (z = y) then mret 0%nat
      else i ← list_index y l'; mret (Datatypes.S i)
  end.

(** [l[i]] for an integer [i]: negative indices count from the end,
    IndexError outside [-len(l), len(l)). *)
Definition getitem {A} (l : list A) (i : Z) : outcome A :=
  let n := Z.of_nat (length l) in
  let j := if i <? 0 then i + n else i in
  if (j <? 0) || (n <=? j) then Raises IndexError
  else match l !! Z.to_nat j with
       | Some a => mret a
       | None => Raises IndexError
       end.

(** [s.split(sep)] for a one-character separator. *)
Fixpoint split_on (sep : ascii) (s : string) : list string :=
  match s with
  | EmptyString => [EmptyString]
  | String c s' =>
      if decide (c = sep) then EmptyString :: split_on sep s'
      else match split_on sep s' with
           | tok :: toks => String c tok :: toks
           | [] => [String c EmptyString]
           end
  end.

(** Python scalars that occur as residue positions. [PyNaN] stands for the
    values on which [pd.isna] holds (None, NaN). *)
Inductive pyval :=
| PyNaN
| PyInt (z : Z)
| PyStr (s : string).

Global Instance pyval_eq_dec : EqDecision pyval.
Proof. solve_decision. Defined.

(** The builtins the routines call on scalars.
    [int_of_float v] is [int(float(v))] and [int_of_str s] is [int(s)];
    [None] when the call raises. *)
Class Builtins := {
  int_of_float : pyval → option Z;
  int_of_str : string → option Z
}.

(** [str(z)] for an int. *)
Definition str (z : Z) : string := pretty z.

Definition is_digit (c : ascii) : bool :=
  let n := nat_of_ascii c in (48 <=? n)%nat && (n <=? 57)%nat.

(** ** CPython on ints and plain decimal literals *)

(** [float(z)] rounds an int to 53 significant bits, ties to even, and
    raises OverflowError from 2^1024 on; [int] of the result is exact. *)
Definition round_binary64 (z : Z) : option Z :=
  let a := Z.abs z in
  let n := Z.log2 a + 1 in
  if n <=? 53 then Some z
  else
    let sh := n - 53 in
    let q := Z.shiftr a sh in
    let r := a - Z.shiftl q sh in
    let half := Z.shiftl 1 (sh - 1) in
    let q' := if (half <? r) || ((r =? half) && Z.odd q) then q + 1 else q in
    let v := Z.shiftl q' sh in
    if 2 ^ 1024 <=? v then None else Some (Z.sgn z * v).

Fixpoint digits_value (acc : Z) (s : string) : option Z :=
  match s with
  | EmptyString => Some acc
  | String c s' =>
      if is_digit c
      then digits_value (10 * acc + Z.of_nat (nat_of_ascii c - 48)) s'
      else None
  end.

(** A decimal literal: an optional sign and at least one digit. *)
Definition decimal_literal (s : string) : option Z :=
  match s with
  | EmptyString => None
  | String "-" EmptyString => None
  | String "+" EmptyString => None
  | String "-" s' => z ← digits_value 0 s'; Some (- z)
  | String "+" s' => digits_value 0 s'
  | _ => digits_value 0 s
  end.

(** The builtins as CPython computes them on ints and on decimal literals.
    Strings of another shape (padding, underscores, fractions, exponents)
    are treated as rejected; no example below contains one. *)
Definition cpython : Builtins := {|
  int_of_float v :=
    match v with
    | PyNaN => None
    | PyInt z => round_binary64 z
    | PyStr s => z ← decimal_literal s; round_binary64 z
    end;
  int_of_str s := decimal_literal s
|}.

(** ** Token normalizer: [convert_to_str] *)

(** The digits of [s], in order: the [except] branch of [convert_to_str]. *)
Fixpoint keep_digits (s : string) : string :=
  match s with
  | EmptyString => EmptyString
  | String c s' => if is_digit c then String c (keep_digits s') else keep_digits s'
  end.

Section Normalizer.
Context `{Builtins}.

(** One round of the loop body of [convert_to_str]: the token appended for
    [plist[i]].  When [int(float(..))] raises on a scalar that is not a string,
    the [for ch in plist[i]] of the handler raises TypeError. *)
Definition convert_token (add : string) (v : pyval) : outcome string :=
  match v with
  | PyNaN => mret add
  | _ =>
      if decide (v = PyStr "null") then mret add
      else match int_of_float v with
           | Some z => mret (str z)
           | None =>
               match v with
               | PyStr s => mret (keep_digits s)
               | _ => Raises TypeError
               end
           end
  end.

Definition convert_to_str (plist : list pyval) (add : string)
  : outcome (list string) :=
  for_loop (λ new_list v, tok ← convert_token add v; mret (new_list ++ [tok]))
           [] plist.

End Normalizer.

(** ** Interval merger: [merge_overlapping_tuples] *)

Definition interval : Type := Z * Z.

(** Tuple comparison, as [sorted] uses it. *)
Definition tuple_le (a b : interval) : Prop :=
  a.1 < b.1 ∨ (a.1 = b.1 ∧ a.2 ≤ b.2).

Global Instance tuple_le_dec : RelDecision tuple_le.
Proof. intros a b. unfold tuple_le. apply _. Defined.

(** The variables the inner loop updates: the running bounds [x1], [x2] and
    the list [disorder_regions] that [remove] shrinks in place. *)
Record merge_state := MergeState {
  x1 : Z;
  x2 : Z;
  live : list interval
}.

(** Body of the inner loop, for the outer element [x] and the element [y] of
    the slice. *)
Definition merge_pair (x : interval) (st : merge_state) (y : interval)
  : outcome merge_state :=
  let '(y1, y2) := y in
  if (Z.abs (y2 - x1 st) =? 1) || (Z.abs (x2 st - y1) =? 1) then
    live' ← list_remove y (live st);
    mret (MergeState (Z.min x.1 y.1) (Z.max x.2 y.2) live')
  else if (x1 st >? y2) || (x2 st <? y1) then mret st
  else if (x1 st <=? y1) && (x2 st <=? y2) then
    live' ← list_remove y (live st);
    mret (MergeState (x1 st) y2 live')
  else if (x1 st <=? y1) && (x2 st >=? y2) then
    live' ← list_remove y (live st);
    mret (MergeState (x1 st) (x2 st) live')
  else if (x1 st >=? y1) && (x2 st >=? y2) then
    live' ← list_remove y (live st);
    mret (MergeState y1 (x2 st) live')
  else if (x1 st >=? y1) && (x2 st <=? y2) then
    live' ← list_remove y (live st);
    mret (MergeState y1 y2 live')
  else mret st.

(** [for y in disorder_regions[i+1:]]: the slice is a copy taken before the
    loop starts, the removals act on the live list. *)
Definition merge_inner (x : interval) (st : merge_state) (ys : list interval)
  : outcome merge_state :=
  for_loop (merge_pair x) st ys.

Definition inspect {A} (a : A) : {b : A | a = b} := exist _ a eq_refl.

(** [for i, x in enumerate(disorder_regions)]: the list iterator reads the
    live list at position [i] and stops once [i] is past its end, so elements
    removed by the inner loop are never visited.  The loop terminates because
    the inner loop never lengthens the list. *)
Equations? merge_outer (i : nat) (regions merged : list interval)
  : outcome (list interval) by wf (length regions - i)%nat lt :=
merge_outer i regions merged with inspect (regions !! i) := {
  | exist _ None _ := Returns merged;
  | exist _ (Some x) Hx
      with inspect (merge_inner x (MergeState x.1 x.2 regions)
                                (drop (Datatypes.S i) regions)) := {
      | exist _ (Raises e) _ := Raises e;
      | exist _ (Returns st) Hin :=
          merge_outer (Datatypes.S i) (live st) (merged ++ [(x1 st, x2 st)]) } }.
Proof.
  apply lookup_lt_Some in Hx.
  assert (∀ y (l l' : list interval),
            list_remove y l = Returns l' → (length l' ≤ length l)%nat) as Hrm.
  { intros y l. induction l as [|z l IH]; intros l'; simpl; [done|].
    case_decide; [intros [= ->]; lia|].
    destruct (list_remove y l) eqn:E; simpl; [|done].
    intros [= <-]. simpl. specialize (IH _ eq_refl). lia. }
  assert (∀ s y s', merge_pair x s y = Returns s' →
                    (length (live s') ≤ length (live s))%nat) as Hpair.
  { intros s [y1 y2] s'. unfold merge_pair.
    repeat case_match; simpl;
      try (intros [= <-]; simpl; lia);
      destruct (list_remove _ _) eqn:E; simpl; try done; intros [= <-]; simpl;
      by apply Hrm in E. }
  assert (∀ ys s s', merge_inner x s ys = Returns s' →
                     (length (live s') ≤ length (live s))%nat) as Hloop.
  { unfold merge_inner. induction ys as [|y ys IH]; intros s s'; simpl.
    - intros [= <-]. lia.
    - destruct (merge_pair x s y) eqn:E; simpl; [|done].
      intros Hs%IH. apply Hpair in E. lia. }
  apply Hloop in Hin. simpl in Hin. lia.
Qed.

Definition merge_overlapping_tuples (disorder_regions : list interval)
  : outcome (list interval) :=
  merge_outer 0 (merge_sort tuple_le disorder_regions) [].

(** ** Region consolidator: [consolidate_regions] *)

Section Consolidator.
Context `{Builtins}.

Definition py_int (s : string) : outcome Z :=
  match int_of_str s with
  | Some z => mret z
  | None => Raises ValueError
  end.

(** [( int( x.split("-")[0] ), int( x.split("-")[1] ) )] *)
Definition parse_region (x : string) : outcome interval :=
  a ← getitem (split_on "-" x) 0;
  start ← py_int a;
  b ← getitem (split_on "-" x) 1;
  stop ← py_int b;
  mret (start, stop).

Definition parse_regions (disorder_regions : string) : outcome (list interval) :=
  for_loop (λ acc x, r ← parse_region x; mret (acc ++ [r]))
           [] (split_on "," disorder_regions).

Definition consolidate_regions (disorder_regions : string) (min_len : Z)
  : outcome (list interval) :=
  regions ← parse_regions disorder_regions;
  merged ← merge_overlapping_tuples regions;
  mret (filter (λ x : interval, x.2 - x.1 + 1 >= min_len) merged).

End Consolidator.

(** ** Basis converter: [change_basis], [change_basis2] *)

Definition newline : string := String "010"%char EmptyString.

Definition invalid_position : exn :=
  Exception ("Invalid position in target_pos..." +:+ newline).

Section BasisConverter.
Context `{Builtins}.

(** Loop body of [change_basis] for the normalized target token [t]. *)
Definition change_basis_step (mapped_uni_pos mapped_pdb_pos : list string)
    (forward : bool) (modified_target : list string) (t : string)
  : outcome (list string) :=
  if decide (t = "null") then mret (modified_target ++ ["null"])
  else if negb forward then
    idx ← list_index t mapped_uni_pos;
    v ← getitem mapped_pdb_pos (Z.of_nat idx);
    mret (modified_target ++ [v])
  else
    idx ← list_index t mapped_pdb_pos;
    v ← getitem mapped_uni_pos (Z.of_nat idx);
    mret (modified_target ++ [v]).

Definition change_basis (mapped_uni_pos mapped_pdb_pos target_pos : list pyval)
    (add : string) (forward : bool) : outcome (list string) :=
  mapped_uni_pos' ← convert_to_str mapped_uni_pos "null";
  mapped_pdb_pos' ← convert_to_str mapped_pdb_pos "null";
  target_pos' ← convert_to_str target_pos add;
  for_loop (change_basis_step mapped_uni_pos' mapped_pdb_pos' forward)
           [] target_pos'.

Definition change_basis2 (mapping target_pos : list pyval) (indices : list Z)
    (add : string) : outcome (list string) :=
  mapping' ← convert_to_str mapping "null";
  target_pos' ← convert_to_str target_pos add;
  if decide ("null" ∈ target_pos') then Raises invalid_position
  else
    for_loop (λ modified_target idx,
                v ← getitem mapping' idx; mret (modified_target ++ [v]))
             [] indices.

End BasisConverter.

(** ** [add_residue_positions] *)

Definition excessive_residues : exn :=
  Exception "Excessive residues added to the target...".

(** [pos not in target_pos] compares with [==], which on the scalars of
    [pyval] is equality of the values. *)
Definition add_residue_positions (query_pos target_pos : list pyval)
    (add_null : bool) : outcome (list pyval) :=
  let positions :=
    fold_left (λ positions pos,
                 let add := if add_null then PyStr "null" else pos in
                 if decide (pos ∉ target_pos) then positions ++ [add]
                 else positions ++ [pos])
              query_pos [] in
  if decide (length positions ≠ length query_pos)
  then Raises excessive_residues
  else mret positions.

(** ** Interval extractor: [ranges] *)

(** [zip(edges, edges)] over one shared iterator: consecutive elements are
    paired, a trailing single element is dropped. *)
Fixpoint pair_up {A} (edges : list A) : list (A * A) :=
  match edges with
  | a :: b :: rest => (a, b) :: pair_up rest
  | _ => []
  end.

(** The positions are ints, on which [int] is the identity;
    [sorted(set(..))] is the ascending list of the distinct values. *)
Definition ranges (positions : list Z) : list (Z * Z) :=
  let positions := merge_sort Z.le (remove_dups positions) in
  let gaps :=
    (λ p : Z * Z, [p.1; p.2])
      <$> filter (λ p : Z * Z, p.1 + 1 < p.2) (zip positions (drop 1 positions)) in
  let edges :=
    take 1 positions ++ concat gaps
      ++ drop (length positions - 1) positions in
  pair_up edges.

(** ** Null stripper: [remove_nulls], [remove_nulls2] *)

(** [enumerate(l)] *)
Definition enumerate {A} (l : list A) : list (nat * A) := imap pair l.

Section NullStripper.
Context `{Builtins}.

(** Only the length of [index_list] is read. *)
Definition remove_nulls (positions : list pyval) (index_list : list Z)
  : outcome (list string * list nat) :=
  positions' ← convert_to_str positions "null";
  mret (fold_left
          (λ '(new_pos, new_ind) '(idx, pos),
             if decide (pos ≠ "null") then
               (new_pos ++ [pos],
                if decide (length index_list ≠ 0%nat) then new_ind ++ [idx]
                else new_ind)
             else (new_pos, new_ind))
          (enumerate positions') ([], [])).

(** The variables of the loop of [remove_nulls2]. *)
Record runs_state := RunsState {
  new_pos : list (list string);
  new_ind : list (list nat);
  tmp_pos : list string;
  tmp_ind : list nat
}.

Definition remove_nulls2_step (index_list : list Z) (st : runs_state)
    (item : nat * string) : runs_state :=
  let '(idx, pos) := item in
  if decide (pos ≠ "null") then
    RunsState (new_pos st) (new_ind st) (tmp_pos st ++ [pos])
              (if decide (length index_list ≠ 0%nat) then tmp_ind st ++ [idx]
               else tmp_ind st)
  else
    let st' :=
      if decide (tmp_pos st ≠ []) then
        RunsState (new_pos st ++ [tmp_pos st])
                  (if decide (length index_list ≠ 0%nat)
                   then new_ind st ++ [tmp_ind st] else new_ind st)
                  (tmp_pos st) (tmp_ind st)
      else st in
    RunsState (new_pos st') (new_ind st') [] [].

Definition remove_nulls2 (positions : list pyval) (index_list : list Z)
  : outcome (list (list string) * list (list nat)) :=
  positions' ← convert_to_str positions "null";
  let st := fold_left (remove_nulls2_step index_list) (enumerate positions')
                      (RunsState [] [] [] []) in
  let st' :=
    if decide (tmp_pos st ≠ []) then
      RunsState (new_pos st ++ [tmp_pos st])
                (if decide (length index_list ≠ 0%nat)
                 then new_ind st ++ [tmp_ind st] else new_ind st)
                (tmp_pos st) (tmp_ind st)
    else st in
  mret (new_pos st', new_ind st').

End NullStripper.

(** ** Gap filler: [add_gaps] *)

(** [l.insert(i, x)] for [i >= 0]: past the end it appends. *)
Definition list_insert_at {A} (i : nat) (x : A) (l : list A) : list A :=
  take i l ++ x :: drop i l.

Definition mismatch_in_target : exn := Exception "Mismatch in target length...".
Definition excessive_residues_target : exn :=
  Exception "Excessive residues added to target...".

Section GapFiller.
Context `{Builtins}.

(** Body of the first loop of [add_gaps], on the live [target_pos]. *)
Definition add_gaps_step (add : string) (target_pos : list string)
    (item : nat * string) : outcome (list string) :=
  let '(i, res1) := item in
  if decide (res1 = "null") then mret (list_insert_at i add target_pos)
  else if decide (res1 ∉ target_pos) then mret (list_insert_at i add target_pos)
  else
    v ← getitem target_pos (Z.of_nat i);
    if decide (v ≠ res1) then mret (list_insert_at i add target_pos)
    else mret target_pos.

(** One round of the comprehension that fills [target]. *)
Definition add_gaps_entry (add : string) (target : list string)
    (item : nat * string) : list string :=
  let '(i, res) := item in
  if decide (res = add) then list_insert_at i add target else target.

Definition add_gaps (query_pos target_pos target : list pyval) (add : string)
  : outcome (list string) :=
  if decide (length target_pos ≠ length target) then Raises mismatch_in_target
  else
    query_pos' ← convert_to_str query_pos "null";
    target_pos' ← convert_to_str target_pos "null";
    target' ← convert_to_str target "null";
    target_pos'' ← for_loop (add_gaps_step add) target_pos' (enumerate query_pos');
    let target'' :=
      fold_left (add_gaps_entry add) (enumerate target_pos'') target' in
    if decide (length target_pos'' ≠ length target'')
    then Raises excessive_residues_target
    else mret target''.

End GapFiller.

(** ** Counting, intersecting and merging positions *)

(** [sub in s] for strings. *)
Fixpoint is_prefix (p s : string) : bool :=
  match p, s with
  | EmptyString, _ => true
  | String a p', String b s' => bool_decide (a = b) && is_prefix p' s'
  | String _ _, EmptyString => false
  end.

Fixpoint contains (sub s : string) : bool :=
  is_prefix sub s
  || match s with
     | EmptyString => false
     | String _ s' => contains sub s'
     end.

(** [str(pos)] is only reached for a value on which [pd.isna] fails. *)
Definition count_missing_residues (positions : list pyval) : Z :=
  fold_left (λ count pos,
               match pos with
               | PyNaN => count + 1
               | PyInt z => if contains "null" (str z) then count + 1 else count
               | PyStr s => if contains "null" s then count + 1 else count
               end)
            positions 0.

(** [set(a).intersection(b)]: the distinct elements of [a] that occur in
    [b]; the order in which a set is iterated is fixed by the sort that
    follows. *)
Definition set_intersection (a b : list Z) : list Z :=
  filter (λ z, z ∈ b) (remove_dups a).

Definition get_intersection (pos_x pos_y : list Z) : list Z :=
  let intersect :=
    if (length pos_y <? length pos_x)%nat
    then set_intersection pos_x pos_y
    else set_intersection pos_y pos_x in
  merge_sort Z.le intersect.

Definition check_for_overlap (uni_pos1 uni_pos2 : list Z)
    (ignore_boundary : bool) : outcome bool :=
  let boundary := if ignore_boundary then 0 else 1 in
  start1 ← getitem uni_pos1 0;
  end1 ← getitem uni_pos1 (-1);
  start2 ← getitem uni_pos2 0;
  end2 ← getitem uni_pos2 (-1);
  let overlap := Z.max 0 (Z.min end1 end2 - Z.max start1 start2 + boundary) in
  mret (overlap >? 0).



(** ** Fuzzy regions: [fuzz_boundary_to_seq] *)





(** [np.arange(a, b, 1)] on ints. *)
Definition arange (a b : Z) : list Z := seqZ a (b - a).

Section FuzzyRegions.
Context `{Builtins}.



End FuzzyRegions.

(** ** Sequence encoders: [create_tokens], [tokenizer],
       [create_one_hot_vectors], [one_hot_encodings] *)

Definition AMINO_ACIDS : string := "ACDEFGHIKLMNPQRSTVWYX".
Definition OTHERS : list string := ["PADS"].

(** [list(s)]: the characters of [s], each a string of length one. *)
Fixpoint chars (s : string) : list string :=
  match s with
  | EmptyString => []
  | String c s' => String c EmptyString :: chars s'
  end.

(** [d[k]] on a dict.  KeyError is carried by [Exception], with the key as
    its message. *)
Definition dict_get {V} (d : gmap string V) (k : string) : outcome V :=
  match d !! k with
  | Some v => mret v
  | None => Raises (Exception ("KeyError: " +:+ k))
  end.

(** [np.array(rows).reshape(length, cols)] for [cols > 0]: the elements in
    row-major order, regrouped; a [length] of -1 is inferred from the size;
    ValueError when the sizes do not agree. *)
Fixpoint chunks {A} (k cols : nat) (data : list A) : list (list A) :=
  match k with
  | O => []
  | Datatypes.S k' => take cols data :: chunks k' cols (drop cols data)
  end.

Definition reshape {A} (rows : list (list A)) (length cols : Z)
  : outcome (list (list A)) :=
  let data := concat rows in
  let size := Z.of_nat (List.length data) in
  if length =? -1 then
    if size mod cols =? 0
    then mret (chunks (Z.to_nat (size / cols)) (Z.to_nat cols) data)
    else Raises ValueError
  else if (length <? 0) || negb (length * cols =? size) then Raises ValueError
  else mret (chunks (Z.to_nat length) (Z.to_nat cols) data).

Definition create_tokens : gmap string Z * string :=
  (fold_left (λ aa_to_tokens '(i, aa), <[aa := Z.of_nat i + 1]> aa_to_tokens)
             (enumerate (chars AMINO_ACIDS ++ OTHERS)) ∅,
   AMINO_ACIDS).

(** [max_len] is [None] or an int. *)
Definition tokenizer (seq : string) (max_len : option Z)
  : outcome (list (list Z)) :=
  let aa_to_tokens := create_tokens.1 in
  let length := Z.of_nat (String.length seq) in
  tokenized_seq ←
    for_loop (λ tokenized_seq res,
                tok ← (if decide (aa_to_tokens !! res = None)
                       then dict_get aa_to_tokens "X"
                       else dict_get aa_to_tokens res);
                mret (tokenized_seq ++ [tok]))
             [] (chars seq);
  '(tokenized_seq, length) ←
    match max_len with
    | Some max_len =>
        if Z.of_nat (String.length seq) <? max_len then
          tokenized_seq ←
            for_loop (λ tokenized_seq _,
                        tok ← dict_get aa_to_tokens "PADS";
                        mret (tokenized_seq ++ [tok]))
                     tokenized_seq
                     (seqZ 0 (max_len - Z.of_nat (String.length seq)));
          mret (tokenized_seq, max_len)
        else mret (tokenized_seq, length)
    | None => mret (tokenized_seq, length)
    end;
  reshape ((λ tok, [tok]) <$> tokenized_seq) length 1.




(** ** Lists kept in files: [read_file], [write_to_file] *)

(** The files, by name, with their contents.  Opening a file for writing is
    taken to succeed; reading a file that is not there raises
    FileNotFoundError, carried by [Exception]. *)
Definition file_system : Type := gmap string string.

Definition LF : ascii := "010"%char.
Definition CR : ascii := "013"%char.

(** Reading in text mode: the line ends CR LF and CR are read as LF. *)
Fixpoint universal_newlines (s : string) : string :=
  match s with
  | EmptyString => EmptyString
  | String c s' =>
      if decide (c = CR) then
        match s' with
        | String c' s'' =>
            if decide (c' = LF) then String LF (universal_newlines s'')
            else String LF (universal_newlines s')
        | EmptyString => String LF EmptyString
        end
      else String c (universal_newlines s')
  end.

(** The lines of a text, each with its line end. *)
Fixpoint lines_of (s : string) : list string :=
  match s with
  | EmptyString => []
  | String c s' =>
      if decide (c = LF) then String LF EmptyString :: lines_of s'
      else match lines_of s' with
           | line :: lines => String c line :: lines
           | [] => [String c EmptyString]
           end
  end.

(** [f.readlines()] *)
Definition readlines (content : string) : list string :=
  lines_of (universal_newlines content).

(** [w.writelines( ",".join( plist ) )] writes the characters of the joined
    string one after the other. *)
Definition write_to_file (plist : list string) (file_name : string)
    (fs : file_system) : file_system :=
  <[file_name := String.concat "," plist]> fs.

Definition read_file (file_name : string) (fs : file_system)
  : outcome (list string) :=
  match fs !! file_name with
  | None => Raises (Exception "FileNotFoundError")
  | Some content =>
      line ← getitem (readlines content) 0;
      let data := split_on "," line in
      final ← getitem data (-1);
      if decide (final = "") then mret (take (length data - 1) data)
      else mret data
  end.

(** ** Vocabulary of the specification *)

(** The integer points of a list of closed intervals. *)
Definition covers (l : list interval) (z : Z) : Prop :=
  ∃ x, x ∈ l ∧ x.1 ≤ z ≤ x.2.

Global Instance covers_dec l z : Decision (covers l z).
Proof.
  refine (cast_if (decide (Exists (λ x : interval, x.1 ≤ z ≤ x.2) l)));
    unfold covers; rewrite Exists_exists in *; naive_solver.
Defined.

(** A token ["start-end"] of the region string denotes the interval [r]:
    its first two fields, split on ["-"], are the ints [r.1] and [r.2]. *)
Definition region_token `{Builtins} (tok : string) (r : interval) : Prop :=
  ∃ a b rest,
    split_on "-" tok = a :: b :: rest
    ∧ int_of_str a = Some r.1 ∧ int_of_str b = Some r.2.

(** [(a, b)] is a maximal run of [positions]: every integer of [[a, b]] is a
    position, and neither [a - 1] nor [b + 1] is. *)
Definition maximal_run (positions : list Z) (a b : Z) : Prop :=
  a ≤ b ∧ (∀ z, a ≤ z ≤ b → z ∈ positions)
  ∧ ((a - 1) ∉ positions) ∧ ((b + 1) ∉ positions).

(** [r] lies wholly before [s], with at least one integer between them. *)
Definition gap_before (r s : interval) : Prop :=
  r.1 ≤ r.2 ∧ r.2 + 1 < s.1 ∧ s.1 ≤ s.2.

(** A missing residue position: NaN / None, or the string "null". *)
Definition is_missing (v : pyval) : Prop := v = PyNaN ∨ v = PyStr "null".

Global Instance is_missing_dec v : Decision (is_missing v).
Proof. unfold is_missing. apply _. Defined.

(** What [change_basis] appends for the token [t]: "null" for "null",
    otherwise the token of the destination stream [dst] at the first index of
    [t] in the source stream [src]. *)
Definition translate (src dst : list string) (t : string) : outcome string :=
  if decide (t = "null") then mret "null"
  else idx ← list_index t src; getitem dst (Z.of_nat idx).

(** The list [edges] of [ranges] behind its first element, for the sorted
    positions [x :: r]. *)
Definition edges_after (x : Z) (r : list Z) : list Z :=
  concat ((λ p : Z * Z, [p.1; p.2])
            <$> filter (λ p : Z * Z, p.1 + 1 < p.2) (zip (x :: r) r))
    ++ drop (length r) (x :: r).


(** The (index, token) pairs that the null strippers keep. *)
Definition kept (toks : list string) : list (nat * string) :=
  filter (λ p : nat * string, p.2 ≠ "null") (enumerate toks).

(** The maximal runs of kept items, in the order [remove_nulls2] forms
    them: [cur] is the run being built. *)
Fixpoint group_runs (items cur : list (nat * string))
  : list (list (nat * string)) :=
  match items with
  | [] => if decide (cur ≠ []) then [cur] else []
  | item :: items' =>
      if decide (item.2 ≠ "null") then group_runs items' (cur ++ [item])
      else (if decide (cur ≠ []) then [cur] else []) ++ group_runs items' []
  end.

Global Instance gap_before_dec : RelDecision gap_before.
Proof. intros r s. unfold gap_before. apply _. Defined.

(** [(run[0], run[-1])] of a run of indices. *)
Definition run_bounds (run : list nat) : interval :=
  (Z.of_nat (default 0%nat (head run)), Z.of_nat (default 0%nat (last run))).

(** [np.arange(x[0], x[1] + 1)]: the positions of a closed interval. *)
Definition expand (x : interval) : list Z := arange x.1 (x.2 + 1).

(** The flush of [remove_nulls2]: a non-empty [tmp_pos] is appended to the
    runs (and [tmp_ind] to the index runs when an index list was given). *)
Definition flush_run (index_list : list Z) (st : runs_state) : runs_state :=
  if decide (tmp_pos st ≠ []) then
    RunsState (new_pos st ++ [tmp_pos st])
              (if decide (length index_list ≠ 0%nat)
               then new_ind st ++ [tmp_ind st] else new_ind st)
              (tmp_pos st) (tmp_ind st)
  else st.

(** What the token table assigns to a residue: its position in
    [AMINO_ACIDS], counted from one; a character outside the alphabet is
    read as ["X"], the last letter.  [decode_token] reads a token back,
    as the letter [AMINO_ACIDS[token - 1]]. *)
Definition residue_token (res : string) : Z :=
  match list_find (.= res) (chars AMINO_ACIDS) with
  | Some (i, _) => Z.of_nat i + 1
  | None => Z.of_nat (String.length AMINO_ACIDS)
  end.

Definition decode_token (token : Z) : string :=
  default "" (chars AMINO_ACIDS !! Z.to_nat (token - 1)).

Definition known_residue (res : string) : string :=
  if decide (res ∈ chars AMINO_ACIDS) then res else "X".


(** A string position that is not the marker "null" but contains it. *)
Definition mentions_null (v : pyval) : bool :=
  match v with
  | PyStr s => contains "null" s && bool_decide (s ≠ "null")
  | _ => false
  end.

(** The positions that are not the marker "null". *)
Definition present (positions : list string) : list string :=
  filter (.≠ "null") positions.

(** What the second pass of [add_gaps] makes of [target] along the marked
    target positions: a marker for a marker, the next entry of [target]
    otherwise. *)
Fixpoint weave (add : string) (marked target : list string) : list string :=
  match marked with
  | [] => target
  | res :: marked' =>
      if decide (res = add) then add :: weave add marked' target
      else match target with
           | x :: target' => x :: weave add marked' target'
           | [] => weave add marked' []
           end
  end.

(** [c in s] for a character. *)
Fixpoint has_char (c : ascii) (s : string) : bool :=
  match s with
  | EmptyString => false
  | String c' s' => bool_decide (c' = c) || has_char c s'
  end.

(** An entry that a file of comma separated entries can hold on one line. *)
Definition plain_entry (s : string) : Prop :=
  has_char "," s = false ∧ has_char LF s = false ∧ has_char CR s = false.

(** One step of a computation whose first part has returned. *)
Ltac step_bind :=
  unfold mret, outcome_ret;
  change (Returns ?a ≫= ?f) with (f a); cbv beta iota.

(** * Properties *)

(** ** Loops and list methods *)

Lemma bind_Returns {A B} (m : outcome A) (f : A → outcome B) (b : B) :
  m ≫= f = Returns b ↔ ∃ a, m = Returns a ∧ f a = Returns b.
Proof.
  destruct m as [a|e]; simpl; split.
  - eauto.
  - by intros (a' & [= <-] & ?).
  - done.
  - by intros (a' & ? & ?).
Qed.

Lemma for_loop_ext {S A} (body1 body2 : S → A → outcome S) st xs :
  (∀ s x, body1 s x = body2 s x) →
  for_loop body1 st xs = for_loop body2 st xs.
Proof.
  intros Hext. revert st. induction xs as [|x xs IH]; intros st; simpl; [done|].
  rewrite Hext. destruct (body2 st x); simpl; auto.
Qed.

(** A loop that appends one computed element per round returns exactly
    when every element computes, and then it has appended the results in
    order. *)
Lemma for_loop_collect {A B} (f : A → outcome B) xs : ∀ acc out,
  for_loop (λ acc x, y ← f x; mret (acc ++ [y])) acc xs = Returns out ↔
  ∃ ys, Forall2 (λ x y, f x = Returns y) xs ys ∧ out = acc ++ ys.
Proof.
  induction xs as [|x xs IH]; intros acc out; simpl.
  - split.
    + intros [= <-]. exists []. by rewrite app_nil_r.
    + intros (ys & Hys & ->). inversion Hys. by rewrite app_nil_r.
  - destruct (f x) as [y|e] eqn:Hfx; simpl.
    + rewrite IH. split.
      * intros (ys & Hys & ->). exists (y :: ys).
        split; [by constructor|]. by rewrite <- app_assoc.
      * intros (ys & Hys & ->). inversion Hys as [|? y' ? ys' Hy Hys']; subst.
        rewrite Hfx in Hy. injection Hy as <-.
        exists ys'. split; [done|]. by rewrite <- app_assoc.
    + split; [done|].
      intros (ys & Hys & _). inversion Hys as [|? y' ? ys' Hy Hys']; subst.
      by rewrite Hfx in Hy.
Qed.

Lemma list_remove_Permutation {A} `{EqDecision A} (y : A) (l : list A) :
  y ∈ l → ∃ l', list_remove y l = Returns l' ∧ l ≡ₚ y :: l'.
Proof.
  induction l as [|z l IH]; [by intros ?%elem_of_nil|].
  intros Hin. simpl. case_decide as Hz.
  - subst. by exists l.
  - apply elem_of_cons in Hin as [->|Hin]; [done|].
    destruct (IH Hin) as (l' & -> & Hl'). exists (z :: l'). split; [done|].
    rewrite Hl'. apply Permutation_swap.
Qed.

Lemma list_index_Returns {A} `{EqDecision A} (y : A) (l : list A) (i : nat) :
  list_index y l = Returns i ↔
  l !! i = Some y ∧ ∀ j, (j < i)%nat → l !! j ≠ Some y.
Proof.
  revert i. induction l as [|z l IH]; intros i; simpl.
  - split; [done|]. by intros [? _].
  - case_decide as Hz.
    + subst. split.
      * intros [= <-]. split; [done|]. lia.
      * intros [Hi Hfirst]. destruct i as [|i]; [done|].
        by destruct (Hfirst 0%nat); [lia|].
    + split.
      * intros (i' & Hi' & [= <-])%bind_Returns.
        apply IH in Hi' as [Hi' Hfirst]. split; [done|].
        intros [|j] Hj; simpl; [congruence|]. apply Hfirst. lia.
      * intros [Hi Hfirst]. destruct i as [|i]; simpl in *; [congruence|].
        apply bind_Returns. exists i. split; [|done].
        apply IH. split; [done|]. intros j Hj. apply (Hfirst (Datatypes.S j)). lia.
Qed.

Lemma list_index_elem_of {A} `{EqDecision A} (y : A) (l : list A) :
  y ∈ l → ∃ i, list_index y l = Returns i.
Proof.
  induction l as [|z l IH]; [by intros ?%elem_of_nil|].
  intros Hin. simpl. case_decide as Hz; [by exists 0%nat|].
  apply elem_of_cons in Hin as [->|Hin]; [done|].
  destruct (IH Hin) as [i ->]. by exists (Datatypes.S i).
Qed.

Lemma list_index_NoDup {A} `{EqDecision A} (y : A) (l : list A) (i : nat) :
  NoDup l → l !! i = Some y → list_index y l = Returns i.
Proof.
  intros Hnd Hi. apply list_index_Returns. split; [done|].
  intros j Hj Hy. pose proof (NoDup_lookup _ _ _ _ Hnd Hi Hy). lia.
Qed.

Lemma getitem_nat {A} (l : list A) (i : nat) (a : A) :
  getitem l (Z.of_nat i) = Returns a ↔ l !! i = Some a.
Proof.
  unfold getitem. destruct (Z.ltb_spec (Z.of_nat i) 0); [lia|].
  rewrite Nat2Z.id.
  destruct (Z.ltb_spec (Z.of_nat i) 0); [lia|]. simpl.
  destruct (Z.leb_spec (Z.of_nat (length l)) (Z.of_nat i)).
  - split; [done|]. intros Hi%lookup_lt_Some. lia.
  - destruct (l !! i) eqn:Hi; unfold mret, outcome_ret; split; congruence.
Qed.

(** [getitem] returns exactly on the indices Python accepts. *)
Lemma getitem_in_range {A} (l : list A) (i : Z) :
  - Z.of_nat (length l) ≤ i < Z.of_nat (length l) ↔
  ∃ a, getitem l i = Returns a.
Proof.
  unfold getitem. cbv zeta. split.
  - intros Hi. destruct (i <? 0) eqn:Hneg.
    + apply Z.ltb_lt in Hneg.
      replace ((i + Z.of_nat (length l) <? 0)
               || (Z.of_nat (length l) <=? i + Z.of_nat (length l))) with false
        by (symmetry; apply orb_false_iff;
            split; [apply Z.ltb_ge|apply Z.leb_gt]; lia).
      destruct (lookup_lt_is_Some_2 l (Z.to_nat (i + Z.of_nat (length l))))
        as [a Ha]; [lia|].
      rewrite Ha. by exists a.
    + apply Z.ltb_ge in Hneg.
      replace ((i <? 0) || (Z.of_nat (length l) <=? i)) with false
        by (symmetry; apply orb_false_iff;
            split; [apply Z.ltb_ge|apply Z.leb_gt]; lia).
      destruct (lookup_lt_is_Some_2 l (Z.to_nat i)) as [a Ha]; [lia|].
      rewrite Ha. by exists a.
  - intros [a Ha]. destruct (i <? 0) eqn:Hneg;
      [apply Z.ltb_lt in Hneg|apply Z.ltb_ge in Hneg].
    all: match type of Ha with (if ?b then _ else _) = _ =>
           destruct b eqn:Hor; [done|] end.
    all: apply orb_false_iff in Hor as [?%Z.ltb_ge ?%Z.leb_gt]; lia.
Qed.

Lemma getitem_raises {A} (l : list A) (i : Z) (e : exn) :
  getitem l i = Raises e → e = IndexError.
Proof.
  unfold getitem, mret, outcome_ret. repeat case_match; congruence.
Qed.

(** ** Interval merger *)

Global Instance tuple_le_trans : Transitive tuple_le.
Proof. intros [a1 a2] [b1 b2] [c1 c2]; unfold tuple_le; simpl; lia. Qed.

Global Instance tuple_le_antisymm : AntiSymm (=) tuple_le.
Proof.
  intros [a1 a2] [b1 b2]; unfold tuple_le; simpl. intros ??.
  f_equal; lia.
Qed.

Global Instance tuple_le_total : Total tuple_le.
Proof. intros [a1 a2] [b1 b2]; unfold tuple_le; simpl; lia. Qed.

(** [sorted] does not depend on the order of its input. *)
Lemma sorted_Permutation (l1 l2 : list interval) :
  l1 ≡ₚ l2 → merge_sort tuple_le l1 = merge_sort tuple_le l2.
Proof.
  intros Hperm. apply (Sorted_unique tuple_le).
  - apply Sorted_merge_sort, _.
  - apply Sorted_merge_sort, _.
  - by rewrite !merge_sort_Permutation.
Qed.

Lemma merge_outer_step i regions merged :
  merge_outer i regions merged =
  match regions !! i with
  | None => Returns merged
  | Some x =>
      st ← merge_inner x (MergeState x.1 x.2 regions)
                          (drop (Datatypes.S i) regions);
      merge_outer (Datatypes.S i) (live st) (merged ++ [(x1 st, x2 st)])
  end.
Proof.
  funelim (merge_outer i regions merged).
  - match goal with E : regions !! i = None |- _ => by rewrite E end.
  - match goal with
    | E : regions !! i = Some _, E' : merge_inner _ _ _ = Returns _ |- _ =>
        by rewrite E, E'
    end.
  - match goal with
    | E : regions !! i = Some _, E' : merge_inner _ _ _ = Raises _ |- _ =>
        by rewrite E, E'
    end.
Qed.

(** Every [remove] of the inner loop finds its element: the elements of the
    slice still to be visited are, as a multiset, in the live list. *)
Lemma merge_pair_total x st y ys :
  y :: ys ⊆+ live st →
  ∃ st', merge_pair x st y = Returns st' ∧ ys ⊆+ live st'.
Proof.
  intros Hsub.
  assert (ys ⊆+ live st) as Hkeep.
  { etrans; [|exact Hsub]. by apply submseteq_cons. }
  assert (∃ l', list_remove y (live st) = Returns l' ∧ ys ⊆+ l')
    as (l' & Hrm & Hl').
  { destruct (list_remove_Permutation y (live st)) as (l' & Hrm & Hperm).
    - eapply elem_of_submseteq; [|exact Hsub]. left.
    - exists l'. split; [done|]. rewrite Hperm in Hsub.
      by apply (submseteq_app_inv_l _ _ [y]). }
  unfold merge_pair. destruct y as [y1 y2].
  repeat case_match; rewrite ?Hrm; simpl; eauto.
Qed.

Lemma merge_inner_total x ys : ∀ st,
  ys ⊆+ live st → ∃ st', merge_inner x st ys = Returns st'.
Proof.
  unfold merge_inner.
  induction ys as [|y ys IH]; intros st Hsub; simpl; [by eexists|].
  destruct (merge_pair_total x st y ys Hsub) as (st' & -> & Hsub'). simpl.
  by apply IH.
Qed.

Lemma merge_outer_total i regions merged :
  ∃ out, merge_outer i regions merged = Returns out.
Proof.
  funelim (merge_outer i regions merged).
  - by eexists.
  - match goal with IH : ∃ _, _ |- _ => exact IH end.
  - match goal with E : merge_inner ?x ?st ?ys = Raises _ |- _ =>
      destruct (merge_inner_total x ys st) as [st' Hst'];
        [apply submseteq_drop|congruence]
    end.
Qed.

(** [merge_overlapping_tuples] returns on every input. *)
Lemma merge_overlapping_tuples_total l :
  ∃ out, merge_overlapping_tuples l = Returns out.
Proof. apply merge_outer_total. Qed.

(** C1.  The claim: the output of [merge_overlapping_tuples] covers exactly
    the integer points of its input, also when three or more intervals merge
    into one.  The code meets the two examples of the specification, and
    fails the claim on [(1,1); (1,5); (2,2)]: the adjacency branch rebuilds
    the bounds from the original [x] instead of the running [x1], [x2], so the
    extension to 5 gained from [(1,5)] is lost when [(2,2)] is absorbed, and
    the points 3, 4 and 5 of the input are covered by no output interval.
    The same happens on [(1,5); (2,10); (9,9)], which loses the point 10. *)
Theorem merge_overlapping_tuples_loses_points :
  merge_overlapping_tuples [(1,2); (5,10); (8,25)]
    = Returns [(1,2); (5,25)] ∧
  merge_overlapping_tuples [(1,2); (5,10); (8,25); (26,34); (10,20); (32,37)]
    = Returns [(1,2); (5,37)] ∧
  merge_overlapping_tuples [(1,1); (1,5); (2,2)] = Returns [(1,2)] ∧
  covers [(1,1); (1,5); (2,2)] 4 ∧ ¬ covers [(1,2)] 4 ∧
  merge_overlapping_tuples [(1,5); (2,10); (9,9)] = Returns [(1,9)] ∧
  covers [(1,5); (2,10); (9,9)] 10 ∧ ¬ covers [(1,9)] 10.
Proof.
  repeat split; try by vm_compute.
  - by apply (bool_decide_unpack _).
  - by apply (bool_decide_unpack _).
  - by apply (bool_decide_unpack _).
  - by apply (bool_decide_unpack _).
Qed.

(** C2.  Two input lists that are permutations of each other give the same
    output list, and on both the function returns: the result does not depend
    on the order of the input. *)
Theorem merge_overlapping_tuples_permutation (l1 l2 : list interval) :
  l1 ≡ₚ l2 →
  ∃ out, merge_overlapping_tuples l1 = Returns out
         ∧ merge_overlapping_tuples l2 = Returns out.
Proof.
  intros Hperm.
  destruct (merge_overlapping_tuples_total l1) as [out Hout].
  exists out. split; [done|].
  unfold merge_overlapping_tuples in *.
  by rewrite <- (sorted_Permutation l1 l2).
Qed.

Lemma merge_overlapping_tuples_permutation_witness :
  ∃ out,
    merge_overlapping_tuples [(8,25); (1,2); (5,10)] = Returns out
    ∧ merge_overlapping_tuples [(1,2); (5,10); (8,25)] = Returns out.
Proof.
  apply (merge_overlapping_tuples_permutation
           [(8,25); (1,2); (5,10)] [(1,2); (5,10); (8,25)]).
  by apply (bool_decide_unpack _).
Defined.

(** ** Region consolidator *)

Section ConsolidatorProperties.
Context `{Builtins}.

Lemma py_int_Returns s z : py_int s = Returns z ↔ int_of_str s = Some z.
Proof.
  unfold py_int, mret, outcome_ret.
  destruct (int_of_str s); split; congruence.
Qed.

Lemma parse_region_Returns tok r :
  parse_region tok = Returns r ↔ region_token tok r.
Proof.
  unfold parse_region, region_token. split.
  - intros (a & Ha & (start & Hstart & (b & Hb & (stop & Hstop & [= <-])
      %bind_Returns)%bind_Returns)%bind_Returns)%bind_Returns.
    apply (getitem_nat _ 0%nat) in Ha. apply (getitem_nat _ 1%nat) in Hb.
    apply py_int_Returns in Hstart, Hstop.
    destruct (split_on "-" tok) as [|a' [|b' rest]]; simplify_eq/=.
    by exists a, b, rest.
  - intros (a & b & rest & Hsplit & Ha & Hb). rewrite Hsplit.
    apply bind_Returns. exists a. split; [by apply (getitem_nat _ 0%nat)|].
    apply bind_Returns. exists r.1. split; [by apply py_int_Returns|].
    apply bind_Returns. exists b. split; [by apply (getitem_nat _ 1%nat)|].
    apply bind_Returns. exists r.2. split; [by apply py_int_Returns|].
    by destruct r.
Qed.

Lemma parse_regions_Returns s regions :
  parse_regions s = Returns regions ↔
  Forall2 region_token (split_on "," s) regions.
Proof.
  unfold parse_regions. rewrite for_loop_collect. split.
  - intros (ys & Hys & ->). simpl.
    eapply Forall2_impl; [exact Hys|]. intros ??. apply parse_region_Returns.
  - intros Hall. exists regions. split; [|done].
    eapply Forall2_impl; [exact Hall|]. intros ??. apply parse_region_Returns.
Qed.

End ConsolidatorProperties.

(** C5.  When the comma-separated tokens of the string denote the intervals
    [regions], [consolidate_regions] returns the merge of [regions] filtered
    to the intervals of inclusive length at least [min_len], in the order of
    the merge; and on "1-2,5-10,8-25" with [min_len = 5] it returns
    [(5,25)]. *)
Theorem consolidate_regions_spec `{Builtins} (s : string) (min_len : Z)
    (regions : list interval) :
  Forall2 region_token (split_on "," s) regions →
  (∃ merged out,
      parse_regions s = Returns regions
      ∧ merge_overlapping_tuples regions = Returns merged
      ∧ consolidate_regions s min_len = Returns out
      ∧ out = filter (λ x : interval, x.2 - x.1 + 1 >= min_len) merged
      ∧ out `sublist_of` merged
      ∧ ∀ x, x ∈ out ↔ x ∈ merged ∧ min_len ≤ x.2 - x.1 + 1)
  ∧ @consolidate_regions cpython "1-2,5-10,8-25" 5 = Returns [(5,25)].
Proof.
  intros Hparse%parse_regions_Returns. split; [|by vm_compute].
  destruct (merge_overlapping_tuples_total regions) as [merged Hmerged].
  exists merged, (filter (λ x : interval, x.2 - x.1 + 1 >= min_len) merged).
  split; [done|]. split; [done|].
  split; [unfold consolidate_regions; rewrite Hparse; simpl; by rewrite Hmerged|].
  split; [done|]. split; [apply sublist_filter|].
  intros x. rewrite list_elem_of_filter. split; intros []; split; auto; lia.
Qed.

Lemma consolidate_regions_spec_witness :
  (∃ merged out,
      @parse_regions cpython "1-2,5-10,8-25" = Returns [(1,2); (5,10); (8,25)]
      ∧ merge_overlapping_tuples [(1,2); (5,10); (8,25)] = Returns merged
      ∧ @consolidate_regions cpython "1-2,5-10,8-25" 5 = Returns out
      ∧ out = filter (λ x : interval, x.2 - x.1 + 1 >= 5) merged
      ∧ out `sublist_of` merged
      ∧ ∀ x, x ∈ out ↔ x ∈ merged ∧ 5 ≤ x.2 - x.1 + 1)
  ∧ @consolidate_regions cpython "1-2,5-10,8-25" 5 = Returns [(5,25)].
Proof.
  apply (@consolidate_regions_spec cpython "1-2,5-10,8-25" 5
           [(1,2); (5,10); (8,25)]).
  repeat constructor; by eexists _, _, _.
Defined.

(** ** Interval extractor *)

Global Instance gap_before_trans : Transitive gap_before.
Proof. intros [a1 a2] [b1 b2] [c1 c2]; unfold gap_before; simpl; lia. Qed.

Lemma edges_after_nil x : edges_after x [] = [x].
Proof. done. Qed.

Lemma edges_after_cons x y r :
  edges_after x (y :: r) =
  (if decide (x + 1 < y) then [x; y] else []) ++ edges_after y r.
Proof.
  unfold edges_after. simpl zip. rewrite filter_cons. simpl.
  case_decide; simpl; done.
Qed.

Lemma edges_after_nonempty x r : ∃ e rest, edges_after x r = e :: rest.
Proof.
  revert x. induction r as [|y r IH]; intros x.
  - by exists x, [].
  - rewrite edges_after_cons. case_decide; simpl; [by eexists _, _|apply IH].
Qed.

Lemma pair_up_cons {A} (a b : A) (l : list A) :
  pair_up (a :: b :: l) = (a, b) :: pair_up l.
Proof. done. Qed.

Lemma ranges_sorted_positions positions x r :
  merge_sort Z.le (remove_dups positions) = x :: r →
  ranges positions = pair_up (x :: edges_after x r).
Proof.
  intros Hp. unfold ranges. rewrite Hp. unfold edges_after. simpl.
  by rewrite Nat.sub_0_r.
Qed.

(** The sweep over ascending distinct positions yields intervals that
    follow one another with gaps and cover exactly the positions. *)
Lemma ranges_invariant r : ∀ x,
  StronglySorted Z.lt (x :: r) →
  ∃ e t,
    pair_up (x :: edges_after x r) = (x, e) :: t
    ∧ Sorted gap_before ((x, e) :: t)
    ∧ Forall (λ s : interval, s.1 ≤ s.2) ((x, e) :: t)
    ∧ ∀ z, z ∈ x :: r ↔ covers ((x, e) :: t) z.
Proof.
  induction r as [|y r IH]; intros x Hsorted.
  - exists x, []. rewrite edges_after_nil. simpl.
    split; [done|]. split; [by repeat constructor|].
    split; [by repeat constructor|].
    intros z. unfold covers. rewrite list_elem_of_singleton. split.
    + intros ->. exists (x, x). rewrite list_elem_of_singleton. simpl.
      split; [done|lia].
    + intros (s & ->%list_elem_of_singleton & Hz). simpl in Hz. lia.
  - apply StronglySorted_inv in Hsorted as [Hsorted Hx].
    assert (x < y) as Hxy by (by apply Forall_cons in Hx as [? _]).
    destruct (IH y Hsorted) as (e & t & Hpair & Hchain & Hwf & Hcover).
    assert (y ≤ e) as Hye by (by apply Forall_cons in Hwf as [? _]).
    rewrite edges_after_cons. case_decide as Hgap; cbn [app].
    + rewrite pair_up_cons. exists x, ((y, e) :: t). rewrite Hpair.
      split; [done|]. split.
      { constructor; [done|]. constructor. unfold gap_before. simpl. lia. }
      split; [by constructor|].
      intros z. rewrite elem_of_cons, Hcover. unfold covers. split.
      * intros [->|(s & Hs & Hz)].
        -- exists (x, x). split; [left|simpl; lia].
        -- exists s. split; [by right|done].
      * intros (s & [->|Hs]%elem_of_cons & Hz).
        -- left. simpl in Hz. lia.
        -- right. by exists s.
    + destruct (edges_after_nonempty y r) as (e' & rest & Hedges).
      rewrite Hedges in Hpair |- *. rewrite pair_up_cons in Hpair |- *.
      injection Hpair as <- <-.
      exists e', (pair_up rest). split; [done|]. split.
      { apply Sorted_inv in Hchain as [Hchain Hhd]. constructor; [done|].
        destruct Hhd as [|s t' Hs]; constructor.
        unfold gap_before in *. simpl in *. lia. }
      split.
      { apply Forall_cons in Hwf as [_ Hwf]. constructor; [simpl; lia|done]. }
      intros z. rewrite elem_of_cons, Hcover. unfold covers. split.
      * intros [->|(s & [->|Hs]%elem_of_cons & Hz)].
        -- exists (x, e'). split; [left|simpl; lia].
        -- exists (x, e'). split; [left|simpl in *; lia].
        -- exists s. split; [by right|done].
      * intros (s & [->|Hs]%elem_of_cons & Hz).
        -- simpl in Hz. destruct (decide (z = x)) as [->|]; [by left|].
           right. exists (y, e'). split; [left|simpl; lia].
        -- right. exists s. split; [by right|done].
Qed.

Lemma sorted_set_ascending (positions : list Z) :
  StronglySorted Z.lt (merge_sort Z.le (remove_dups positions)).
Proof.
  assert (NoDup (merge_sort Z.le (remove_dups positions))) as Hnd.
  { rewrite merge_sort_Permutation. apply NoDup_remove_dups. }
  pose proof (StronglySorted_merge_sort Z.le (remove_dups positions)) as Hs.
  induction Hs as [|x l Hs IH Hx]; [constructor|].
  apply NoDup_cons in Hnd as [Hxl Hnd]. constructor; [by apply IH|].
  apply Forall_forall. intros z Hz.
  rewrite Forall_forall in Hx. specialize (Hx z Hz).
  assert (x ≠ z) by (by intros ->). lia.
Qed.

Lemma sorted_set_elem_of (positions : list Z) z :
  z ∈ merge_sort Z.le (remove_dups positions) ↔ z ∈ positions.
Proof. by rewrite merge_sort_Permutation, elem_of_remove_dups. Qed.

(** Two intervals of a gapped chain are equal or one lies before the
    other. *)
Lemma gap_before_trichotomy (l : list interval) (r s : interval) :
  StronglySorted gap_before l → r ∈ l → s ∈ l →
  r = s ∨ gap_before r s ∨ gap_before s r.
Proof.
  induction 1 as [|x l Hl IH Hx]; [by intros ?%elem_of_nil|].
  rewrite Forall_forall in Hx.
  intros [->|Hr]%elem_of_cons [->|Hs]%elem_of_cons; auto.
Qed.

(** A gapped chain of well-formed intervals that covers exactly the
    positions consists of exactly their maximal runs. *)
Lemma chain_maximal_runs (positions : list Z) (l : list interval) :
  StronglySorted gap_before l →
  Forall (λ s : interval, s.1 ≤ s.2) l →
  (∀ z, z ∈ positions ↔ covers l z) →
  ∀ a b, (a, b) ∈ l ↔ maximal_run positions a b.
Proof.
  intros Hchain Hwf Hcover.
  rewrite Forall_forall in Hwf.
  assert (∀ a b, (a, b) ∈ l → maximal_run positions a b) as Hsound.
  { intros a b Hab. pose proof (Hwf _ Hab) as Hle. simpl in Hle.
    split; [done|]. split; [|split].
    - intros z Hz. apply Hcover. by exists (a, b).
    - intros (s & Hs & Hz)%Hcover.
      destruct (gap_before_trichotomy l (a, b) s Hchain Hab Hs)
        as [<-|[Hlt|Hlt]]; unfold gap_before in *; simpl in *; lia.
    - intros (s & Hs & Hz)%Hcover.
      destruct (gap_before_trichotomy l (a, b) s Hchain Hab Hs)
        as [<-|[Hlt|Hlt]]; unfold gap_before in *; simpl in *; lia. }
  intros a b. split; [apply Hsound|].
  intros (Hle & Hin & Hlo & Hhi).
  destruct (proj1 (Hcover a)) as ([s1 s2] & Hs & Hz); [apply Hin; lia|].
  simpl in Hz.
  destruct (Hsound _ _ Hs) as (_ & Hin' & Hlo' & Hhi').
  assert (s1 = a) as ->.
  { destruct (decide (s1 = a)); [done|].
    destruct Hlo. apply Hin'. lia. }
  assert (s2 = b) as ->; [|done].
  destruct (Z.lt_trichotomy s2 b) as [?|[?|?]]; [|done|].
  - destruct Hhi'. apply Hin. lia.
  - destruct Hhi. apply Hin'. lia.
Qed.

Lemma StronglySorted_weaken {A} (R R' : relation A) (l : list A) :
  (∀ x y, R x y → R' x y) → StronglySorted R l → StronglySorted R' l.
Proof.
  intros Himpl. induction 1 as [|x l Hl IH Hx]; constructor; [done|].
  eapply Forall_impl; [exact Hx|]. apply Himpl.
Qed.

(** C6.  [ranges] returns the maximal runs of its input, each once, in
    ascending order: [(a, b)] is in the output exactly when every integer of
    [[a, b]] is an input position and neither [a - 1] nor [b + 1] is; and on
    the example of the specification it returns
    [(11,18); (22,25); (40,43); (67,70)]. *)
Theorem ranges_maximal_runs (positions : list Z) :
  (∀ a b, (a, b) ∈ ranges positions ↔ maximal_run positions a b)
  ∧ StronglySorted (λ r s : Z * Z, r.1 < s.1) (ranges positions)
  ∧ StronglySorted gap_before (ranges positions)
  ∧ ranges [11;12;13;14;15;16;17;18;22;23;24;25;40;41;42;43;67;68;69;70]
    = [(11,18); (22,25); (40,43); (67,70)].
Proof.
  assert (∃ l, ranges positions = l
               ∧ StronglySorted gap_before l
               ∧ Forall (λ s : interval, s.1 ≤ s.2) l
               ∧ ∀ z, z ∈ positions ↔ covers l z) as (l & -> & Hchain & Hwf & Hcover).
  { destruct (merge_sort Z.le (remove_dups positions)) as [|x r] eqn:Hp.
    - exists []. split; [by unfold ranges; rewrite Hp|].
      split; [constructor|]. split; [constructor|].
      intros z. rewrite <- sorted_set_elem_of, Hp. split.
      + by intros ?%elem_of_nil.
      + by intros (s & ?%elem_of_nil & _).
    - pose proof (sorted_set_ascending positions) as Hasc. rewrite Hp in Hasc.
      destruct (ranges_invariant r x Hasc) as (e & t & Hpair & Hchain & Hwf & Hcover).
      exists ((x, e) :: t). split.
      { by rewrite (ranges_sorted_positions positions x r). }
      split; [by apply Sorted_StronglySorted; [apply _|]|]. split; [done|].
      intros z. by rewrite <- sorted_set_elem_of, Hp. }
  split; [by apply chain_maximal_runs|].
  split; [|split; [done|by vm_compute]].
  apply (StronglySorted_weaken gap_before); [|done].
  intros [r1 r2] [s1 s2]. unfold gap_before. simpl. lia.
Qed.

(** ** [add_residue_positions] *)

Lemma add_residue_positions_loop (target_pos : list pyval) (add_null : bool)
    (query_pos acc : list pyval) :
  fold_left (λ positions pos,
               let add := if add_null then PyStr "null" else pos in
               if decide (pos ∉ target_pos) then positions ++ [add]
               else positions ++ [pos])
            query_pos acc
  = acc ++ ((λ pos, if decide (pos ∈ target_pos) then pos
                    else if add_null then PyStr "null" else pos)
              <$> query_pos).
Proof.
  revert acc. induction query_pos as [|pos query_pos IH]; intros acc; simpl.
  - by rewrite app_nil_r.
  - rewrite IH. repeat case_decide; try done; by rewrite <- app_assoc.
Qed.

(** C7.  [add_residue_positions] returns on every input, with one output
    element per element of [query_pos]: the element itself when it occurs in
    [target_pos], and otherwise "null" (or the element again when [add_null]
    is off).  So the length check after the loop never fires. *)
Theorem add_residue_positions_length (query_pos target_pos : list pyval)
    (add_null : bool) :
  ∃ positions,
    add_residue_positions query_pos target_pos add_null = Returns positions
    ∧ length positions = length query_pos
    ∧ positions
      = (λ pos, if decide (pos ∈ target_pos) then pos
                else if add_null then PyStr "null" else pos) <$> query_pos
    ∧ add_residue_positions query_pos target_pos add_null
      ≠ Raises excessive_residues.
Proof.
  unfold add_residue_positions.
  rewrite add_residue_positions_loop. simpl.
  case_decide as Hlen; [by rewrite length_fmap in Hlen|].
  eexists. split; [done|]. split; [by rewrite length_fmap|]. done.
Qed.

(** C8, as stated, fails: with the eight query positions 11..18 the output
    has eight elements and no trailing "null". *)
Lemma add_residue_positions_example_counterexample :
  add_residue_positions
    (PyInt <$> [11; 12; 13; 14; 15; 16; 17; 18])
    (PyInt <$> [14; 15; 16; 17; 18]) true
  ≠ Returns [PyStr "null"; PyStr "null"; PyStr "null";
             PyInt 14; PyInt 15; PyInt 16; PyInt 17; PyInt 18; PyStr "null"].
Proof. by vm_compute. Qed.

(** C8, amended.  On the query positions 11..18 the output is the three
    "null" followed by 14..18; the trailing "null" of the specification's
    example appears when the query runs to 19, as in the test of the source
    ([np.arange( 11, 20, 1 )]). *)
Theorem add_residue_positions_example :
  add_residue_positions
    (PyInt <$> [11; 12; 13; 14; 15; 16; 17; 18])
    (PyInt <$> [14; 15; 16; 17; 18]) true
  = Returns [PyStr "null"; PyStr "null"; PyStr "null";
             PyInt 14; PyInt 15; PyInt 16; PyInt 17; PyInt 18]
  ∧ add_residue_positions
      (PyInt <$> [11; 12; 13; 14; 15; 16; 17; 18; 19])
      (PyInt <$> [14; 15; 16; 17; 18]) true
    = Returns [PyStr "null"; PyStr "null"; PyStr "null";
               PyInt 14; PyInt 15; PyInt 16; PyInt 17; PyInt 18;
               PyStr "null"].
Proof. split; by vm_compute. Qed.

(** ** Token normalizer *)

Lemma keep_digits_head s c s' :
  keep_digits s = String c s' → is_digit c = true.
Proof.
  induction s as [|d s IH]; simpl; [done|].
  destruct (is_digit d) eqn:Hd; [|done]. by intros [= <- _].
Qed.

Lemma pretty_N_char_digit (x : N) : is_digit (pretty_N_char x) = true.
Proof. unfold pretty_N_char. by repeat case_match. Qed.

(** The digits that [pretty] puts in front of [s] are digits. *)
Lemma pretty_N_go_head (x : N) : ∀ s,
  pretty_N_go x s = s
  ∨ ∃ c s', pretty_N_go x s = String c s' ∧ is_digit c = true.
Proof.
  induction (N.lt_wf_0 x) as [x _ IH]; intros s.
  destruct (decide (x = 0)%N) as [->|Hx]; [by left|].
  rewrite pretty_N_go_step by lia.
  assert (x `div` 10 < x)%N as Hlt by (apply N.div_lt; lia).
  destruct (IH _ Hlt (String (pretty_N_char (x `mod` 10)) s))
    as [->|Hhead]; [|by right].
  right. eexists _, _. split; [done|]. apply pretty_N_char_digit.
Qed.

Lemma str_not_null (z : Z) : str z ≠ "null".
Proof.
  unfold str, pretty, pretty_Z.
  assert (∀ p : positive, pretty p ≠ "null") as Hpos.
  { intros p. unfold pretty, pretty_positive, pretty, pretty_N.
    case_decide; [done|].
    destruct (pretty_N_go_head (N.pos p) "") as [->|(c & s' & -> & Hc)]; [done|].
    intros [= -> _]. done. }
  destruct z as [|p|p]; [done|apply Hpos|done].
Qed.

(** On ints below 2^53 and on their decimal tokens, CPython's conversions
    are exact: the token of [z] is [str z], and normalizing that token again
    gives it back. *)
Lemma pretty_N_char_value (d : N) :
  (d < 10)%N →
  is_digit (pretty_N_char d) = true
  ∧ Z.of_nat (nat_of_ascii (pretty_N_char d) - 48) = Z.of_N d.
Proof.
  intros Hd.
  assert (d = 0 ∨ d = 1 ∨ d = 2 ∨ d = 3 ∨ d = 4 ∨ d = 5 ∨ d = 6 ∨ d = 7
          ∨ d = 8 ∨ d = 9)%N as Hcases by lia.
  repeat (destruct Hcases as [->|Hcases]; [by vm_compute|]).
  by subst.
Qed.

Lemma digits_value_pretty_N_go (x : N) :
  ∃ k : Z, 0 ≤ k ∧ ∀ s acc,
    digits_value acc (pretty_N_go x s)
    = digits_value (acc * 10 ^ k + Z.of_N x) s.
Proof.
  induction (N.lt_wf_0 x) as [x _ IH].
  destruct (decide (x = 0)%N) as [->|Hx].
  { exists 0. split; [done|]. intros s acc. rewrite pretty_N_go_0. f_equal. lia. }
  assert (x `div` 10 < x)%N as Hlt by (apply N.div_lt; lia).
  destruct (IH _ Hlt) as (k & Hk & Hdigits).
  exists (k + 1). split; [lia|]. intros s acc.
  rewrite pretty_N_go_step by lia. rewrite Hdigits. simpl.
  destruct (pretty_N_char_value (x `mod` 10)%N) as [-> ->];
    [by apply N.mod_lt|].
  f_equal. rewrite Z.pow_add_r by lia.
  pose proof (N.div_mod x 10 ltac:(done)) as Hdm.
  apply (f_equal Z.of_N) in Hdm. rewrite N2Z.inj_add, N2Z.inj_mul in Hdm.
  change (Z.of_N 10) with 10 in Hdm. lia.
Qed.

Lemma decimal_literal_digit_head c s :
  is_digit c = true → decimal_literal (String c s) = digits_value 0 (String c s).
Proof.
  destruct c as [[] [] [] [] [] [] [] []]; try done.
Qed.

Lemma decimal_literal_str (z : Z) : decimal_literal (str z) = Some z.
Proof.
  assert (∀ p : positive,
            ∃ c s, pretty p = String c s ∧ is_digit c = true
                   ∧ digits_value 0 (pretty p) = Some (Z.pos p)) as Hpos.
  { intros p.
    assert (pretty p = pretty_N_go (N.pos p) "") as ->.
    { unfold pretty, pretty_positive, pretty, pretty_N.
      by rewrite decide_False. }
    destruct (digits_value_pretty_N_go (N.pos p)) as (k & _ & Hk).
    specialize (Hk "" 0). simpl in Hk.
    destruct (pretty_N_go_head (N.pos p) "") as [Hempty|(c & s & Hcs & Hc)].
    - rewrite Hempty in Hk. simpl in Hk. by injection Hk.
    - exists c, s. by rewrite Hk. }
  unfold str. destruct z as [|p|p]; [done| |].
  - destruct (Hpos p) as (c & s & Hcs & Hc & Hval).
    change (pretty (Z.pos p)) with (pretty p).
    rewrite Hcs in *. by rewrite decimal_literal_digit_head.
  - destruct (Hpos p) as (c & s & Hcs & Hc & Hval).
    change (pretty (Z.neg p)) with ("-" +:+ pretty p).
    rewrite Hcs in *. simpl.
    change (if is_digit c then _ else None) with (digits_value 0 (String c s)).
    by rewrite Hval.
Qed.

Lemma round_binary64_exact (z : Z) :
  Z.abs z < 2 ^ 53 → round_binary64 z = Some z.
Proof.
  intros Hz. unfold round_binary64. cbv zeta.
  assert (Z.log2 (Z.abs z) + 1 ≤ 53) as Hlog.
  { destruct (decide (Z.abs z = 0)) as [->|]; [done|].
    assert (Z.log2 (Z.abs z) < 53); [|lia].
    apply Z.log2_lt_pow2; lia. }
  apply Z.leb_le in Hlog. by rewrite Hlog.
Qed.

Lemma cpython_convert_int (add : string) (z : Z) :
  Z.abs z < 2 ^ 53 → @convert_token cpython add (PyInt z) = Returns (str z).
Proof.
  intros Hz. unfold convert_token. rewrite decide_False by done.
  simpl. by rewrite round_binary64_exact.
Qed.

Lemma cpython_convert_str (add : string) (z : Z) :
  Z.abs z < 2 ^ 53 →
  @convert_token cpython add (PyStr (str z)) = Returns (str z).
Proof.
  intros Hz. unfold convert_token.
  rewrite decide_False by (intros [= Hnull]; by apply str_not_null in Hnull).
  simpl. rewrite decimal_literal_str. simpl. by rewrite round_binary64_exact.
Qed.

Section NormalizerProperties.
Context `{Builtins}.

Lemma convert_to_str_Returns plist add toks :
  convert_to_str plist add = Returns toks ↔
  Forall2 (λ v t, convert_token add v = Returns t) plist toks.
Proof.
  unfold convert_to_str. rewrite for_loop_collect. simpl. naive_solver.
Qed.

Lemma convert_to_str_length plist add toks :
  convert_to_str plist add = Returns toks → length toks = length plist.
Proof.
  intros Htoks%convert_to_str_Returns. symmetry. by eapply Forall2_length.
Qed.

Lemma convert_token_missing add v :
  is_missing v → convert_token add v = Returns add.
Proof. by intros [->| ->]. Qed.

(** Only a missing value is turned into the marker "null". *)
Lemma convert_token_not_missing add v t :
  convert_token add v = Returns t → ¬ is_missing v →
  t ≠ "null".
Proof.
  unfold convert_token, is_missing, mret, outcome_ret. intros Ht Hv.
  destruct v as [|z|s]; [naive_solver| |].
  - case_decide; [done|].
    destruct (int_of_float (PyInt z)); [|done].
    injection Ht as <-. apply str_not_null.
  - case_decide; [naive_solver|].
    destruct (int_of_float (PyStr s)).
    + injection Ht as <-. apply str_not_null.
    + injection Ht as <-. intros Hnull.
      by apply keep_digits_head in Hnull.
Qed.

(** "null" is among the normalized tokens exactly when the marker is
    "null" and some value is missing. *)
Lemma convert_to_str_null plist add toks :
  convert_to_str plist add = Returns toks →
  "null" ∈ toks ↔ add = "null" ∧ Exists is_missing plist.
Proof.
  intros Htoks%convert_to_str_Returns.
  induction Htoks as [|v t plist toks Ht Htoks IH].
  - rewrite Exists_nil. split; [by intros ?%elem_of_nil|naive_solver].
  - rewrite elem_of_cons, Exists_cons, IH.
    destruct (decide (is_missing v)) as [Hv|Hv].
    + rewrite (convert_token_missing _ _ Hv) in Ht. injection Ht as <-.
      naive_solver.
    + pose proof (convert_token_not_missing _ _ _ Ht Hv). naive_solver.
Qed.

End NormalizerProperties.

(** ** Basis converter *)

Section BasisConverterProperties.
Context `{Builtins}.

Lemma change_basis_step_translate uni pdb (forward : bool) acc t :
  change_basis_step uni pdb forward acc t =
  v ← translate (if forward then pdb else uni) (if forward then uni else pdb) t;
  mret (acc ++ [v]).
Proof.
  unfold change_basis_step, translate.
  case_decide; [done|]. destruct forward; simpl.
  - destruct (list_index t pdb); simpl; [|done]. by destruct (getitem uni _).
  - destruct (list_index t uni); simpl; [|done]. by destruct (getitem pdb _).
Qed.

(** [change_basis] returns exactly when the three streams normalize and
    every normalized target token translates; the output lists the
    translations in order. *)
Lemma change_basis_Returns uni pdb target add (forward : bool) out :
  change_basis uni pdb target add forward = Returns out ↔
  ∃ uni' pdb' target',
    convert_to_str uni "null" = Returns uni'
    ∧ convert_to_str pdb "null" = Returns pdb'
    ∧ convert_to_str target add = Returns target'
    ∧ Forall2 (λ t o, translate (if forward then pdb' else uni')
                                (if forward then uni' else pdb') t = Returns o)
              target' out.
Proof.
  unfold change_basis. split.
  - intros (uni' & Huni & (pdb' & Hpdb & (target' & Htarget & Hloop)
      %bind_Returns)%bind_Returns)%bind_Returns.
    exists uni', pdb', target'. repeat (split; [done|]).
    erewrite for_loop_ext in Hloop
      by (intros; apply change_basis_step_translate).
    apply for_loop_collect in Hloop as (ys & Hys & ->). done.
  - intros (uni' & pdb' & target' & -> & -> & -> & Hall). simpl.
    erewrite for_loop_ext by (intros; apply change_basis_step_translate).
    apply for_loop_collect. by exists out.
Qed.

Lemma translate_found src dst t i o :
  t ≠ "null" → list_index t src = Returns i → dst !! i = Some o →
  translate src dst t = Returns o.
Proof.
  intros Ht Hi Ho. unfold translate. case_decide; [done|].
  rewrite Hi. simpl. by apply getitem_nat.
Qed.

End BasisConverterProperties.

Lemma Forall_exists_Forall2 {A B} (P : A → B → Prop) (l : list A) :
  Forall (λ x, ∃ y, P x y) l → ∃ k, Forall2 P l k.
Proof.
  induction 1 as [|x l [y Hy] _ [k Hk]]; [by exists []|].
  exists (y :: k). by constructor.
Qed.




(** The forward conversion followed by the backward one gives the
    normalized target back when the UniProt tokens are distinct and stable. *)
Lemma round_trip_of_stable_tokens `{Builtins}
    (uni pdb X : list pyval) (uni' pdb' X' : list string) :
  convert_to_str uni "null" = Returns uni' →
  convert_to_str pdb "null" = Returns pdb' →
  convert_to_str X "null" = Returns X' →
  length uni = length pdb →
  Forall (λ v, ¬ is_missing v) uni →
  Forall (λ v, ¬ is_missing v) pdb →
  (∀ t, t ∈ X' → t ∈ pdb') →
  NoDup uni' →
  convert_to_str (PyStr <$> uni') "null" = Returns uni' →
  ∃ Y, change_basis uni pdb X "null" true = Returns Y
       ∧ change_basis uni pdb (PyStr <$> Y) "null" false = Returns X'.
Proof.
  intros Huni Hpdb HX Hlen Huni_nm Hpdb_nm Hfound Hnodup Hstable.
  assert ("null" ∉ uni') as Hnull_uni.
  { rewrite (convert_to_str_null _ _ _ Huni). intros [_ Hex].
    apply Exists_exists in Hex as (v & Hv & Hmiss).
    rewrite Forall_forall in Huni_nm. by apply (Huni_nm v). }
  assert ("null" ∉ pdb') as Hnull_pdb.
  { rewrite (convert_to_str_null _ _ _ Hpdb). intros [_ Hex].
    apply Exists_exists in Hex as (v & Hv & Hmiss).
    rewrite Forall_forall in Hpdb_nm. by apply (Hpdb_nm v). }
  assert (length uni' = length pdb') as Hlen'.
  { rewrite (convert_to_str_length _ _ _ Huni),
      (convert_to_str_length _ _ _ Hpdb). done. }
  (* each target token sits at some index of the mapping *)
  destruct (Forall_exists_Forall2
              (λ t u, ∃ i, t ≠ "null" ∧ list_index t pdb' = Returns i
                           ∧ uni' !! i = Some u ∧ pdb' !! i = Some t) X')
    as [Y HY].
  { apply Forall_forall. intros t Ht%Hfound.
    destruct (list_index_elem_of _ _ Ht) as [i Hi].
    pose proof Hi as [Hti _]%list_index_Returns.
    destruct (lookup_lt_is_Some_2 uni' i) as [u Hu].
    { apply lookup_lt_Some in Hti. lia. }
    exists u, i. repeat split; try done. by intros ->. }
  exists Y. split.
  - apply change_basis_Returns. exists uni', pdb', X'.
    repeat (split; [done|]).
    eapply Forall2_impl; [exact HY|]. simpl.
    intros t u (i & Ht & Hi & Hu & _). by eapply translate_found.
  - apply change_basis_Returns. exists uni', pdb', Y.
    repeat (split; [done|]). split.
    + (* the tokens of [Y] are UniProt tokens, hence stable *)
      apply convert_to_str_Returns. apply Forall2_fmap_l.
      apply convert_to_str_Returns, Forall2_fmap_l in Hstable.
      apply Forall2_same_length_lookup. split; [done|].
      intros j u u' Hj Hj'. simplify_eq.
      destruct (Forall2_lookup_r _ _ _ _ _ HY Hj) as (t & _ & i & _ & _ & Hu & _).
      destruct (Forall2_lookup_l _ _ _ _ _ Hstable Hu) as (u' & Hu' & Hconv).
      by simplify_eq.
    + apply Forall2_flip. eapply Forall2_impl; [exact HY|]. simpl.
      intros t u (i & Ht & Hi & Hu & Hti).
      eapply translate_found; [| |exact Hti].
      * intros ->. apply Hnull_uni. by eapply list_elem_of_lookup_2.
      * by apply list_index_NoDup.
Qed.

(** C3, as stated, fails when two residues carry the same UniProt token:
    the backward lookup finds the first of them.  The mapping below has equal
    lengths and no missing value, and the target 6 is a PDB position of the
    mapping, yet the round trip gives 5. *)
Lemma change_basis_round_trip_counterexample :
  let uni := [PyInt 1; PyInt 1] in
  let pdb := [PyInt 5; PyInt 6] in
  let X := [PyInt 6] in
  length uni = length pdb
  ∧ Forall (λ v, ¬ is_missing v) uni
  ∧ Forall (λ v, ¬ is_missing v) pdb
  ∧ @convert_to_str cpython pdb "null" = Returns ["5"; "6"]
  ∧ @convert_to_str cpython X "null" = Returns ["6"]
  ∧ @change_basis cpython uni pdb X "null" true = Returns ["1"]
  ∧ @change_basis cpython uni pdb [PyStr "1"] "null" false = Returns ["5"].
Proof.
  repeat split; try by vm_compute.
  - repeat constructor; by intros [|].
  - repeat constructor; by intros [|].
Qed.

(** The round trip also needs UniProt tokens that normalization leaves
    unchanged: "05A" is normalized to "05", which the backward pass
    normalizes to "5" and does not find. *)
Lemma change_basis_round_trip_unstable_token :
  @change_basis cpython [PyStr "05A"] [PyInt 1] [PyInt 1] "null" true
    = Returns ["05"]
  ∧ @change_basis cpython [PyStr "05A"] [PyInt 1] [PyStr "05"] "null" false
    = Raises ValueError.
Proof. split; by vm_compute. Qed.

(** C3, amended.  Take a mapping of equal-length streams with no missing
    value, whose normalized UniProt tokens are pairwise distinct and are left
    unchanged by normalization (as the decimal tokens of integer positions
    are), and a target [X] whose normalized tokens all occur in the normalized
    PDB stream.  Then the forward conversion returns some [Y], and the
    backward conversion of [Y] returns the normalized [X]. *)
Theorem change_basis_round_trip `{Builtins}
    (uni pdb X : list pyval) (uni' pdb' X' : list string) :
  convert_to_str uni "null" = Returns uni' →
  convert_to_str pdb "null" = Returns pdb' →
  convert_to_str X "null" = Returns X' →
  length uni = length pdb →
  Forall (λ v, ¬ is_missing v) uni →
  Forall (λ v, ¬ is_missing v) pdb →
  (∀ t, t ∈ X' → t ∈ pdb') →
  NoDup uni' →
  convert_to_str (PyStr <$> uni') "null" = Returns uni' →
  ∃ Y, change_basis uni pdb X "null" true = Returns Y
       ∧ change_basis uni pdb (PyStr <$> Y) "null" false = Returns X'.
Proof. apply round_trip_of_stable_tokens. Qed.

Lemma change_basis_round_trip_witness :
  let uni := [PyInt 35; PyInt 36; PyInt 37; PyInt 38] in
  let pdb := [PyInt 11; PyInt 12; PyStr "13A"; PyInt 16] in
  ∃ Y, @change_basis cpython uni pdb [PyInt 16; PyInt 12; PyInt 13]
         "null" true = Returns Y
       ∧ @change_basis cpython uni pdb (PyStr <$> Y) "null" false
         = Returns ["16"; "12"; "13"].
Proof.
  intros uni pdb.
  apply (@change_basis_round_trip cpython uni pdb
           [PyInt 16; PyInt 12; PyInt 13]
           ["35"; "36"; "37"; "38"] ["11"; "12"; "13"; "16"]
           ["16"; "12"; "13"]); try by vm_compute.
  - repeat constructor; by intros [|].
  - repeat constructor; by intros [|].
  - intros t Ht. apply (bool_decide_unpack _).
    repeat (apply elem_of_cons in Ht as [->|Ht]; [by vm_compute|]).
    by apply elem_of_nil in Ht.
  - by apply (bool_decide_unpack _).
Defined.

(** For integer positions below 2^53, as CPython normalizes them, the
    hypotheses of the round trip come down to distinct UniProt positions. *)
Corollary change_basis_round_trip_ints (uni pdb X : list Z) :
  Forall (λ z, Z.abs z < 2 ^ 53) uni →
  Forall (λ z, Z.abs z < 2 ^ 53) pdb →
  Forall (λ z, Z.abs z < 2 ^ 53) X →
  length uni = length pdb →
  NoDup uni →
  X ⊆ pdb →
  ∃ Y, @change_basis cpython (PyInt <$> uni) (PyInt <$> pdb) (PyInt <$> X)
         "null" true = Returns Y
       ∧ @change_basis cpython (PyInt <$> uni) (PyInt <$> pdb) (PyStr <$> Y)
           "null" false = Returns (str <$> X).
Proof.
  intros Huni Hpdb HX Hlen Hnodup Hsub.
  assert (∀ l, Forall (λ z, Z.abs z < 2 ^ 53) l →
               @convert_to_str cpython (PyInt <$> l) "null"
               = Returns (str <$> l)) as Hints.
  { intros l Hl. apply convert_to_str_Returns.
    apply Forall2_fmap, Forall_Forall2_diag.
    eapply Forall_impl; [exact Hl|]. intros z. apply cpython_convert_int. }
  assert (∀ l : list Z, Forall (λ v, ¬ is_missing v) (PyInt <$> l)) as Hnm.
  { intros l. apply Forall_fmap, Forall_true. by intros z [|]. }
  apply (@round_trip_of_stable_tokens cpython _ _ _
           (str <$> uni) (str <$> pdb) (str <$> X)); auto.
  - by rewrite !length_fmap.
  - intros t (z & -> & Hz)%list_elem_of_fmap. apply list_elem_of_fmap.
    exists z. split; [done|]. by apply Hsub.
  - apply (NoDup_fmap_2 _). done.
  - apply convert_to_str_Returns.
    rewrite <- list_fmap_compose. apply Forall2_fmap, Forall_Forall2_diag.
    eapply Forall_impl; [exact Huni|]. intros z. apply cpython_convert_str.
Qed.

Lemma for_loop_Raises {S A} (body : S → A → outcome S) (P : exn → Prop) :
  (∀ s x e, body s x = Raises e → P e) →
  ∀ xs st e, for_loop body st xs = Raises e → P e.
Proof.
  intros Hbody. induction xs as [|x xs IH]; intros st e; simpl; [done|].
  destruct (body st x) as [st'|e'] eqn:Hst; simpl.
  - apply IH.
  - intros [= <-]. by eapply Hbody.
Qed.

Section IndexedConverterProperties.
Context `{Builtins}.

(** Past the validation, [change_basis2] is the element-wise indexing of the
    normalized mapping. *)
Lemma change_basis2_unfold mapping target indices add mapping' target' :
  convert_to_str mapping "null" = Returns mapping' →
  convert_to_str target add = Returns target' →
  change_basis2 mapping target indices add =
  if decide ("null" ∈ target') then Raises invalid_position
  else for_loop (λ modified_target idx,
                   v ← getitem mapping' idx; mret (modified_target ++ [v]))
                [] indices.
Proof. intros Hm Ht. unfold change_basis2. by rewrite Hm, Ht. Qed.

Lemma indexing_loop_Raises (mapping' : list string) indices e :
  for_loop (λ modified_target idx,
              v ← getitem mapping' idx; mret (modified_target ++ [v]))
           [] indices = Raises e →
  e = IndexError.
Proof.
  apply (for_loop_Raises _ (λ e, e = IndexError)).
  intros s x e'. destruct (getitem mapping' x) eqn:Hx; simpl; [done|].
  intros [= <-]. by eapply getitem_raises.
Qed.

End IndexedConverterProperties.

(** C9, as stated, fails for a marker other than "null": the missing target
    value is normalized to the marker "gap", the test for "null" does not
    see it, and a result is returned.  And with no missing value left, an index
    outside the mapping raises IndexError instead of returning a result. *)
Lemma change_basis2_invalid_position_counterexample :
  is_missing PyNaN
  ∧ @convert_to_str cpython [PyNaN] "gap" = Returns ["gap"]
  ∧ @change_basis2 cpython [PyInt 35] [PyNaN] [0] "gap" = Returns ["35"]
  ∧ @change_basis2 cpython [PyInt 35] [PyInt 1] [1] "null" = Raises IndexError.
Proof. split; [by left|]. repeat split; by vm_compute. Qed.

(** C9, amended.  Let the mapping and the target normalize.  [change_basis2]
    raises the "invalid position" error exactly when the token "null" is among
    the normalized target, which is the case exactly when the marker [add] is
    "null" and the target holds a missing value.  When "null" is not among
    them and every index lies within the mapping (from [-len] up to
    [len - 1]), a result is returned. *)
Theorem change_basis2_invalid_position `{Builtins}
    (mapping target : list pyval) (indices : list Z) (add : string)
    (mapping' target' : list string) :
  convert_to_str mapping "null" = Returns mapping' →
  convert_to_str target add = Returns target' →
  (change_basis2 mapping target indices add = Raises invalid_position
   ↔ "null" ∈ target')
  ∧ ("null" ∈ target' ↔ add = "null" ∧ Exists is_missing target)
  ∧ ("null" ∉ target' →
     Forall (λ idx, - Z.of_nat (length mapping') ≤ idx
                    < Z.of_nat (length mapping')) indices →
     ∃ out, change_basis2 mapping target indices add = Returns out).
Proof.
  intros Hm Ht.
  rewrite (change_basis2_unfold _ _ _ _ _ _ Hm Ht).
  split; [|split].
  - case_decide as Hnull; [done|]. split; [|done].
    by intros ?%indexing_loop_Raises.
  - by apply convert_to_str_null.
  - intros Hnull Hrange. rewrite decide_False by done.
    destruct (Forall_exists_Forall2
                (λ idx o, getitem mapping' idx = Returns o) indices)
      as [out Hout].
    { eapply Forall_impl; [exact Hrange|]. intros idx.
      apply getitem_in_range. }
    exists out. apply for_loop_collect. by exists out.
Qed.

Lemma change_basis2_invalid_position_witness :
  let mapping := [PyInt 35; PyInt 36; PyInt 37] in
  let target := [PyInt 11; PyNaN; PyInt 13] in
  (@change_basis2 cpython mapping target [0; 2] "null" = Raises invalid_position
   ↔ "null" ∈ ["11"; "null"; "13"])
  ∧ ("null" ∈ ["11"; "null"; "13"]
     ↔ "null" = "null" ∧ Exists is_missing target)
  ∧ ("null" ∉ ["11"; "null"; "13"] →
     Forall (λ idx, - Z.of_nat (length ["35"; "36"; "37"]) ≤ idx
                    < Z.of_nat (length ["35"; "36"; "37"])) [0; 2] →
     ∃ out, @change_basis2 cpython mapping target [0; 2] "null" = Returns out).
Proof.
  intros mapping target.
  apply (@change_basis2_invalid_position cpython mapping target [0; 2] "null"
           ["35"; "36"; "37"] ["11"; "null"; "13"]); by vm_compute.
Defined.

(** C10.  Whenever [change_basis2] returns, its output is the normalized
    mapping indexed by [indices], element by element and in order, so it has
    the length of [indices]; and every other target that passes the
    validation gives the same output. *)
Theorem change_basis2_indexes_mapping `{Builtins}
    (mapping target : list pyval) (indices : list Z) (add : string)
    (out : list string) :
  change_basis2 mapping target indices add = Returns out →
  ∃ mapping',
    convert_to_str mapping "null" = Returns mapping'
    ∧ Forall2 (λ idx o, getitem mapping' idx = Returns o) indices out
    ∧ length out = length indices
    ∧ ∀ target2 add2 target2',
        convert_to_str target2 add2 = Returns target2' →
        "null" ∉ target2' →
        change_basis2 mapping target2 indices add2 = Returns out.
Proof.
  unfold change_basis2 at 1.
  intros (mapping' & Hm & (target' & Ht & Hloop)%bind_Returns)%bind_Returns.
  case_decide as Hnull; [done|].
  apply for_loop_collect in Hloop as (ys & Hys & ->). simpl.
  exists mapping'. split; [done|]. split; [done|].
  split; [symmetry; by eapply Forall2_length|].
  intros target2 add2 target2' Ht2 Hnull2.
  rewrite (change_basis2_unfold _ _ _ _ _ _ Hm Ht2).
  rewrite decide_False by done.
  apply for_loop_collect. by exists ys.
Qed.

Lemma change_basis2_indexes_mapping_witness :
  let mapping := [PyInt 35; PyInt 36; PyInt 37] in
  ∃ mapping',
    @convert_to_str cpython mapping "null" = Returns mapping'
    ∧ Forall2 (λ idx o, getitem mapping' idx = Returns o)
              [2; 0; -1] ["37"; "35"; "37"]
    ∧ length ["37"; "35"; "37"] = length [2; 0; -1]
    ∧ ∀ target2 add2 target2',
        @convert_to_str cpython target2 add2 = Returns target2' →
        "null" ∉ target2' →
        @change_basis2 cpython mapping target2 [2; 0; -1] add2
        = Returns ["37"; "35"; "37"].
Proof.
  intros mapping.
  apply (@change_basis2_indexes_mapping cpython mapping
           [PyInt 11; PyInt 12; PyInt 13] [2; 0; -1] "null").
  by vm_compute.
Defined.

(** * Further routines *)

(** ** Loops, continued *)


(** ** Token normalizer, continued *)


Section NormalizerShape.
Context `{Builtins}.

Lemma convert_token_str_total (add s : string) :
  ∃ t, convert_token add (PyStr s) = Returns t.
Proof.
  unfold convert_token. case_decide; [by eexists|].
  destruct (int_of_float (PyStr s)); by eexists.
Qed.



Lemma convert_to_str_strings (l : list string) (add : string) :
  ∃ toks, convert_to_str (PyStr <$> l) add = Returns toks.
Proof.
  destruct (Forall_exists_Forall2
              (λ v t, convert_token add v = Returns t) (PyStr <$> l))
    as [toks Htoks].
  - apply Forall_fmap, Forall_true. intros s. apply convert_token_str_total.
  - exists toks. by apply convert_to_str_Returns.
Qed.

End NormalizerShape.



(** ** Null stripper *)

Lemma StronglySorted_sublist {A} (R : relation A) (l1 l2 : list A) :
  l1 `sublist_of` l2 → StronglySorted R l2 → StronglySorted R l1.
Proof.
  induction 1 as [|x l1 l2 Hsub IH|x l1 l2 Hsub IH]; intros Hs; [done|..].
  - apply StronglySorted_inv in Hs as [Hs Hx]. constructor; [by apply IH|].
    eapply Forall_impl; [|by intros ? Hy; exact Hy].
    rewrite Forall_forall in Hx |- *. intros y Hy. apply Hx.
    by eapply sublist_subseteq.
  - apply StronglySorted_inv in Hs as [Hs _]. by apply IH.
Qed.

Lemma StronglySorted_seq (j n : nat) : StronglySorted lt (seq j n).
Proof.
  revert j. induction n as [|n IH]; intros j; simpl; constructor; [done|].
  apply Forall_forall. intros i Hi%elem_of_seq. lia.
Qed.

Lemma enumerate_fst {A} (l : list A) : (enumerate l).*1 = seq 0 (length l).
Proof.
  unfold enumerate. rewrite fmap_imap.
  rewrite (imap_ext _ (λ i _, i)) by done.
  rewrite (imap_seq_0 l (λ i, i)). apply list_fmap_id.
Qed.

Lemma enumerate_snd {A} (l : list A) : (enumerate l).*2 = l.
Proof.
  unfold enumerate. rewrite fmap_imap.
  rewrite (imap_ext _ (λ _ x, x)) by done.
  rewrite (imap_const id). apply list_fmap_id.
Qed.

Lemma elem_of_enumerate {A} (l : list A) (i : nat) (x : A) :
  (i, x) ∈ enumerate l ↔ l !! i = Some x.
Proof.
  unfold enumerate. rewrite elem_of_lookup_imap. naive_solver.
Qed.

Lemma filter_items_snd (items : list (nat * string)) :
  (filter (λ p : nat * string, p.2 ≠ "null") items).*2
  = filter (λ t, t ≠ "null") items.*2.
Proof.
  induction items as [|[i t] items IH]; [done|].
  rewrite fmap_cons, !filter_cons. simpl.
  case_decide; simpl; [f_equal|]; exact IH.
Qed.

Lemma kept_snd (toks : list string) :
  (kept toks).*2 = filter (λ t, t ≠ "null") toks.
Proof. unfold kept. by rewrite filter_items_snd, enumerate_snd. Qed.

Lemma kept_fst_sorted (toks : list string) : StronglySorted lt (kept toks).*1.
Proof.
  apply (StronglySorted_sublist _ _ (seq 0 (length toks)));
    [|apply StronglySorted_seq].
  rewrite <- enumerate_fst. apply fmap_sublist, sublist_filter.
Qed.

Lemma elem_of_kept (toks : list string) (i : nat) (t : string) :
  (i, t) ∈ kept toks ↔ toks !! i = Some t ∧ t ≠ "null".
Proof.
  unfold kept. rewrite list_elem_of_filter, elem_of_enumerate. naive_solver.
Qed.

Lemma remove_nulls_loop (index_list : list Z) (items : list (nat * string)) :
  ∀ acc_pos acc_ind,
  fold_left
    (λ '(new_pos, new_ind) '(idx, pos),
       if decide (pos ≠ "null") then
         (new_pos ++ [pos],
          if decide (length index_list ≠ 0%nat) then new_ind ++ [idx]
          else new_ind)
       else (new_pos, new_ind))
    items (acc_pos, acc_ind)
  = (acc_pos ++ (filter (λ p : nat * string, p.2 ≠ "null") items).*2,
     if decide (length index_list ≠ 0%nat)
     then acc_ind ++ (filter (λ p : nat * string, p.2 ≠ "null") items).*1
     else acc_ind).
Proof.
  induction items as [|[i t] items IH]; intros acc_pos acc_ind; simpl.
  - rewrite app_nil_r. case_decide; by rewrite ?app_nil_r.
  - rewrite filter_cons. simpl. destruct (decide (t ≠ "null")); simpl.
    + rewrite IH. rewrite <- !app_assoc. simpl.
      by destruct (decide (length index_list ≠ 0%nat)); rewrite <- ?app_assoc.
    + by rewrite IH.
Qed.

Section NullStripperProperties.
Context `{Builtins}.

Lemma remove_nulls_kept positions index_list toks :
  convert_to_str positions "null" = Returns toks →
  remove_nulls positions index_list
  = Returns ((kept toks).*2,
             if decide (length index_list ≠ 0%nat) then (kept toks).*1
             else []).
Proof.
  intros Htoks. unfold remove_nulls. rewrite Htoks. simpl.
  rewrite remove_nulls_loop. by destruct (decide (length index_list ≠ 0%nat)).
Qed.

End NullStripperProperties.

(** X2.  When the positions normalize to [toks], [remove_nulls] returns the
    tokens other than "null", in order.  With a non-empty [index_list] it also
    returns, in increasing order, exactly the indices of the tokens it kept, so
    that [toks[new_ind[k]]] is [new_pos[k]]; with an empty one it returns no
    index.  The values in [index_list] are never read: any two non-empty index
    lists give the same result. *)
Theorem remove_nulls_indices `{Builtins} (positions : list pyval)
    (index_list : list Z) (toks : list string) :
  convert_to_str positions "null" = Returns toks →
  ∃ new_pos new_ind,
    remove_nulls positions index_list = Returns (new_pos, new_ind)
    ∧ new_pos = filter (λ t, t ≠ "null") toks
    ∧ (index_list = [] → new_ind = [])
    ∧ (index_list ≠ [] →
       length new_ind = length new_pos
       ∧ StronglySorted lt new_ind
       ∧ (∀ k i, new_ind !! k = Some i → toks !! i = new_pos !! k)
       ∧ (∀ i t, toks !! i = Some t → t ≠ "null" → i ∈ new_ind)
       ∧ ∀ index_list', index_list' ≠ [] →
           remove_nulls positions index_list'
           = remove_nulls positions index_list).
Proof.
  intros Htoks. eexists _, _.
  split; [by apply remove_nulls_kept|].
  split; [apply kept_snd|]. split.
  - intros ->. done.
  - intros Hne.
    assert (length index_list ≠ 0%nat) as Hlen by (by destruct index_list).
    rewrite decide_True by done.
    split; [by rewrite !length_fmap|].
    split; [apply kept_fst_sorted|]. split; [|split].
    + intros k i Hk. apply list_lookup_fmap_Some in Hk as ([i' t] & -> & Hk).
      rewrite list_lookup_fmap, Hk. simpl.
      apply list_elem_of_lookup_2, elem_of_kept in Hk. tauto.
    + intros i t Hi Ht. apply list_elem_of_fmap. exists (i, t).
      split; [done|]. by apply elem_of_kept.
    + intros index_list' Hne'.
      rewrite !(remove_nulls_kept _ _ toks) by done.
      assert (length index_list' ≠ 0%nat) by (by destruct index_list').
      by rewrite !decide_True.
Qed.

Lemma remove_nulls_indices_witness :
  let positions := [PyStr "null"; PyInt 11; PyInt 12; PyNaN; PyInt 16] in
  let toks := ["null"; "11"; "12"; "null"; "16"] in
  ∃ new_pos new_ind,
    @remove_nulls cpython positions [0] = Returns (new_pos, new_ind)
    ∧ new_pos = filter (λ t, t ≠ "null") toks
    ∧ ([0] = [] → new_ind = [])
    ∧ ([0] ≠ [] →
       length new_ind = length new_pos
       ∧ StronglySorted lt new_ind
       ∧ (∀ k i, new_ind !! k = Some i → toks !! i = new_pos !! k)
       ∧ (∀ i t, toks !! i = Some t → t ≠ "null" → i ∈ new_ind)
       ∧ ∀ index_list', index_list' ≠ [] →
           @remove_nulls cpython positions index_list'
           = @remove_nulls cpython positions [0]).
Proof.
  intros positions toks.
  apply (@remove_nulls_indices cpython positions [0] toks). by vm_compute.
Defined.

(** X3.  What [remove_nulls] returns is what [change_basis2] asks for: the
    kept positions pass its validation whatever the marker, and with a mapping
    as long as the positions the kept indices are all in range, so the call
    returns the mapping token at each kept index. *)
Theorem remove_nulls_change_basis2 `{Builtins}
    (positions mapping : list pyval) (index_list : list Z) (add : string)
    (toks mapping' new_pos : list string) (new_ind : list nat) :
  convert_to_str positions "null" = Returns toks →
  convert_to_str mapping "null" = Returns mapping' →
  length mapping = length positions →
  index_list ≠ [] →
  remove_nulls positions index_list = Returns (new_pos, new_ind) →
  ∃ out,
    change_basis2 mapping (PyStr <$> new_pos) (Z.of_nat <$> new_ind) add
      = Returns out
    ∧ Forall2 (λ i o, mapping' !! i = Some o) new_ind out.
Proof.
  intros Htoks Hm Hlen Hne Hrm.
  assert (length index_list ≠ 0%nat) as Hil by (by destruct index_list).
  rewrite (remove_nulls_kept _ _ toks), decide_True in Hrm by done.
  injection Hrm as <- <-.
  destruct (convert_to_str_strings (kept toks).*2 add) as [target' Ht'].
  assert ("null" ∉ target') as Hnull.
  { rewrite (convert_to_str_null _ _ _ Ht'). intros [_ Hex].
    apply Exists_exists in Hex as (v & Hv & Hmiss).
    apply list_elem_of_fmap in Hv as (t & -> & Ht).
    apply list_elem_of_fmap in Ht as ([i t'] & -> & Hit%elem_of_kept).
    destruct Hmiss as [?|[= ?]]; [done|]. simpl in *. naive_solver. }
  rewrite (change_basis2_unfold _ _ _ _ _ _ Hm Ht'), decide_False by done.
  destruct (Forall_exists_Forall2 (λ i o, mapping' !! i = Some o)
              (kept toks).*1) as [out Hout].
  { apply Forall_forall. intros i ([i' t] & -> & Hit%elem_of_kept)%list_elem_of_fmap.
    apply lookup_lt_is_Some_2. simpl.
    destruct Hit as [Hit%lookup_lt_Some _].
    rewrite (convert_to_str_length _ _ _ Hm), Hlen,
      <- (convert_to_str_length _ _ _ Htoks). done. }
  exists out. split; [|done].
  apply for_loop_collect. exists out. split; [|done].
  apply Forall2_fmap_l. eapply Forall2_impl; [exact Hout|].
  intros i o Hi. simpl. by apply getitem_nat.
Qed.

Lemma remove_nulls_change_basis2_witness :
  let pdb := [PyStr "null"; PyInt 11; PyInt 12; PyNaN; PyInt 16] in
  let uni := [PyInt 35; PyInt 36; PyInt 37; PyInt 38; PyInt 39] in
  ∃ out,
    @change_basis2 cpython uni (PyStr <$> ["11"; "12"; "16"])
      (Z.of_nat <$> [1; 2; 4]%nat) "null" = Returns out
    ∧ Forall2 (λ i o, ["35"; "36"; "37"; "38"; "39"] !! i = Some o)
              [1; 2; 4]%nat out.
Proof.
  intros pdb uni.
  apply (@remove_nulls_change_basis2 cpython pdb uni [0] "null"
           ["null"; "11"; "12"; "null"; "16"]); by vm_compute.
Defined.

(** ** Chains of intervals *)

Lemma StronglySorted_NoDup {A} (R : relation A) (l : list A) :
  (∀ x, ¬ R x x) → StronglySorted R l → NoDup l.
Proof.
  intros Hirr. induction 1 as [|x l Hl IH Hx]; constructor; [|done].
  rewrite Forall_forall in Hx. intros Hin. by apply (Hirr x), Hx.
Qed.

Lemma elem_of_concat {A} (x : A) (ls : list (list A)) :
  x ∈ concat ls ↔ ∃ l, x ∈ l ∧ l ∈ ls.
Proof.
  induction ls as [|l ls IH]; simpl.
  - split; [by intros ?%elem_of_nil|]. by intros (l & _ & ?%elem_of_nil).
  - rewrite elem_of_app, IH. split.
    + intros [Hx|(l' & Hx & Hl')]; [exists l; split; [done|left]|].
      exists l'. split; [done|by right].
    + intros (l' & Hx & [->|Hl']%elem_of_cons); [by left|]. right. by exists l'.
Qed.

(** Restated from the proof of the interval extractor: the output of
    [ranges] is a gapped chain of well-formed intervals covering exactly the
    input positions. *)
Lemma ranges_chain (positions : list Z) :
  StronglySorted gap_before (ranges positions)
  ∧ Forall (λ s : interval, s.1 ≤ s.2) (ranges positions)
  ∧ ∀ z, z ∈ positions ↔ covers (ranges positions) z.
Proof.
  destruct (merge_sort Z.le (remove_dups positions)) as [|x r] eqn:Hp.
  - assert (ranges positions = []) as -> by (by unfold ranges; rewrite Hp).
    split; [constructor|]. split; [constructor|].
    intros z. rewrite <- sorted_set_elem_of, Hp. split.
    + by intros ?%elem_of_nil.
    + by intros (s & ?%elem_of_nil & _).
  - pose proof (sorted_set_ascending positions) as Hasc. rewrite Hp in Hasc.
    destruct (ranges_invariant r x Hasc) as (e & t & Hpair & Hchain & Hwf & Hcover).
    rewrite (ranges_sorted_positions positions x r), Hpair by done.
    split; [by apply Sorted_StronglySorted; [apply _|]|]. split; [done|].
    intros z. by rewrite <- sorted_set_elem_of, Hp.
Qed.

(** Two gapped chains of well-formed intervals that cover the same
    positions are the same list. *)
Lemma chain_unique (positions : list Z) (l1 l2 : list interval) :
  StronglySorted gap_before l1 → Forall (λ s : interval, s.1 ≤ s.2) l1 →
  (∀ z, z ∈ positions ↔ covers l1 z) →
  StronglySorted gap_before l2 → Forall (λ s : interval, s.1 ≤ s.2) l2 →
  (∀ z, z ∈ positions ↔ covers l2 z) →
  l1 = l2.
Proof.
  intros Hs1 Hwf1 Hc1 Hs2 Hwf2 Hc2.
  assert (∀ x : interval, ¬ gap_before x x) as Hirr.
  { intros [a b]. unfold gap_before. simpl. lia. }
  apply (StronglySorted_unique_strong gap_before); [|done..|].
  - intros [a b] [c d] _ _. unfold gap_before. simpl. lia.
  - apply NoDup_Permutation; [by eapply StronglySorted_NoDup..|].
    intros [a b].
    rewrite (chain_maximal_runs positions l1), (chain_maximal_runs positions l2);
      done.
Qed.

(** X4.  [ranges] undoes the expansion of intervals into positions: for a
    list of well-formed intervals that follow one another with gaps, the
    positions of all the intervals, in any order and with repetitions, are
    turned back into the list. *)
Theorem ranges_expand (l : list interval) (positions : list Z) :
  StronglySorted gap_before l →
  Forall (λ s : interval, s.1 ≤ s.2) l →
  (∀ z, z ∈ positions ↔ z ∈ concat (expand <$> l)) →
  ranges positions = l.
Proof.
  intros Hchain Hwf Hpos.
  destruct (ranges_chain positions) as (Hr & Hrwf & Hrcover).
  apply (chain_unique positions); try done.
  intros z. rewrite Hpos, elem_of_concat. unfold covers. split.
  - intros (p & Hz & (x & -> & Hx)%list_elem_of_fmap).
    exists x. split; [done|].
    unfold expand, arange in Hz. apply elem_of_seqZ in Hz. lia.
  - intros (x & Hx & Hz). exists (expand x). split.
    + unfold expand, arange. apply elem_of_seqZ. lia.
    + apply list_elem_of_fmap. by exists x.
Qed.

Lemma ranges_expand_witness :
  ranges ([5; 6; 7] ++ [1; 2] ++ [7; 5]) = [(1, 2); (5, 7)].
Proof.
  apply (ranges_expand [(1, 2); (5, 7)]).
  - by apply (bool_decide_unpack _).
  - by apply (bool_decide_unpack _).
  - intros z. change (concat (expand <$> [(1, 2); (5, 7)])) with [1; 2; 5; 6; 7].
    set_solver.
Defined.

(** ** Null stripper in runs *)

Lemma group_runs_concat (items : list (nat * string)) : ∀ cur,
  concat (group_runs items cur)
  = cur ++ filter (λ p : nat * string, p.2 ≠ "null") items.
Proof.
  induction items as [|item items IH]; intros cur; simpl.
  - rewrite app_nil_r. case_decide as Hcur; simpl; [by rewrite app_nil_r|].
    by destruct cur.
  - rewrite filter_cons. destruct (decide (item.2 ≠ "null")).
    + by rewrite IH, <- app_assoc.
    + rewrite concat_app, IH. simpl.
      case_decide as Hcur; simpl; [by rewrite app_nil_r|]. by destruct cur.
Qed.

Lemma group_runs_nonempty (items : list (nat * string)) : ∀ cur,
  Forall (λ run, run ≠ []) (group_runs items cur).
Proof.
  induction items as [|item items IH]; intros cur; simpl.
  - case_decide; by repeat constructor.
  - destruct (decide (item.2 ≠ "null")); [apply IH|].
    apply Forall_app. split; [|apply IH]. case_decide; by repeat constructor.
Qed.

Lemma remove_nulls2_step_keep index_list st (i : nat) (t : string) :
  t ≠ "null" →
  remove_nulls2_step index_list st (i, t)
  = RunsState (new_pos st) (new_ind st) (tmp_pos st ++ [t])
              (if decide (length index_list ≠ 0%nat) then tmp_ind st ++ [i]
               else tmp_ind st).
Proof. intros Ht. unfold remove_nulls2_step. by rewrite decide_True. Qed.

Lemma remove_nulls2_step_null index_list st (i : nat) (t : string) :
  ¬ t ≠ "null" →
  remove_nulls2_step index_list st (i, t)
  = RunsState (new_pos (flush_run index_list st))
              (new_ind (flush_run index_list st)) [] [].
Proof. intros Ht. unfold remove_nulls2_step. by rewrite decide_False. Qed.

Lemma flush_run_cur index_list st (cur : list (nat * string)) :
  tmp_pos st = cur.*2 →
  tmp_ind st = (if decide (length index_list ≠ 0%nat) then cur.*1 else []) →
  new_pos (flush_run index_list st)
  = new_pos st ++ ((λ run : list (nat * string), run.*2)
                     <$> (if decide (cur ≠ []) then [cur] else []))
  ∧ new_ind (flush_run index_list st)
    = (if decide (length index_list ≠ 0%nat)
       then new_ind st ++ ((λ run : list (nat * string), run.*1)
                             <$> (if decide (cur ≠ []) then [cur] else []))
       else new_ind st).
Proof.
  intros Hpos Hind. unfold flush_run. rewrite Hpos, Hind.
  destruct (decide (cur ≠ [])) as [Hcur|Hcur].
  - rewrite decide_True by (by destruct cur). simpl.
    by destruct (decide (length index_list ≠ 0%nat)).
  - assert (cur = []) as -> by (by apply dec_stable). simpl.
    rewrite app_nil_r. by destruct (decide (length index_list ≠ 0%nat));
      rewrite ?app_nil_r.
Qed.

(** The loop of [remove_nulls2] and its final flush build the runs of
    [group_runs]: [cur] holds the items of [tmp_pos], [tmp_ind]. *)
Lemma remove_nulls2_loop (index_list : list Z) (items : list (nat * string)) :
  ∀ st cur,
  tmp_pos st = cur.*2 →
  tmp_ind st = (if decide (length index_list ≠ 0%nat) then cur.*1 else []) →
  new_pos (flush_run index_list
             (fold_left (remove_nulls2_step index_list) items st))
  = new_pos st ++ ((λ run : list (nat * string), run.*2)
                     <$> group_runs items cur)
  ∧ new_ind (flush_run index_list
               (fold_left (remove_nulls2_step index_list) items st))
    = (if decide (length index_list ≠ 0%nat)
       then new_ind st ++ ((λ run : list (nat * string), run.*1)
                             <$> group_runs items cur)
       else new_ind st).
Proof.
  induction items as [|[i t] items IH]; intros st cur Hpos Hind.
  - by apply flush_run_cur.
  - cbn [fold_left group_runs snd]. destruct (decide (t ≠ "null")) as [Ht|Ht].
    + rewrite remove_nulls2_step_keep by done.
      edestruct (IH (RunsState (new_pos st) (new_ind st) (tmp_pos st ++ [t])
                       (if decide (length index_list ≠ 0%nat)
                        then tmp_ind st ++ [i] else tmp_ind st))
                    (cur ++ [(i, t)])) as [IHpos IHind]; cbn [tmp_pos tmp_ind].
      * by rewrite Hpos, fmap_app.
      * rewrite Hind. destruct (decide (length index_list ≠ 0%nat)); [|done].
        by rewrite fmap_app.
      * by rewrite IHpos, IHind.
    + rewrite remove_nulls2_step_null by done.
      destruct (flush_run_cur index_list st cur Hpos Hind) as [Hfp Hfi].
      edestruct (IH (RunsState (new_pos (flush_run index_list st))
                               (new_ind (flush_run index_list st)) [] []) [])
        as [IHpos IHind]; [done|by destruct (decide (length index_list ≠ 0%nat))|].
      rewrite IHpos, IHind. cbn [new_pos new_ind].
      rewrite Hfp, Hfi, !fmap_app, <- app_assoc.
      split; [done|].
      destruct (decide (length index_list ≠ 0%nat)); [|done].
      by rewrite <- app_assoc.
Qed.

Lemma run_bounds_seq (a len : nat) :
  (0 < len)%nat →
  run_bounds (seq a len) = (Z.of_nat a, Z.of_nat (a + len - 1)).
Proof.
  destruct len as [|k]; [lia|]. intros _. unfold run_bounds. f_equal.
  rewrite seq_S, last_snoc. simpl. f_equal. lia.
Qed.

Lemma items_from_cons (n : nat) (t : string) (toks : list string) :
  imap (λ i x, ((n + i)%nat, x)) (t :: toks)
  = (n, t) :: imap (λ i x, ((Datatypes.S n + i)%nat, x)) toks.
Proof.
  rewrite imap_cons. f_equal; [f_equal; lia|].
  apply imap_ext. intros i x _. simpl. f_equal. lia.
Qed.

(** The index runs are runs of consecutive indices, separated by at least
    one dropped index. *)
Lemma group_runs_indices (toks : list string) : ∀ (n : nat) cur,
  cur.*1 = seq (n - length cur) (length cur) → (length cur ≤ n)%nat →
  Forall (λ ir, ir ≠ [] ∧ ∃ a, ir = seq a (length ir))
         ((λ run : list (nat * string), run.*1)
            <$> group_runs (imap (λ i x, ((n + i)%nat, x)) toks) cur)
  ∧ Sorted gap_before
           (run_bounds <$> ((λ run : list (nat * string), run.*1)
              <$> group_runs (imap (λ i x, ((n + i)%nat, x)) toks) cur))
  ∧ Forall (λ ir, Z.of_nat (n - length cur) ≤ (run_bounds ir).1)
           ((λ run : list (nat * string), run.*1)
              <$> group_runs (imap (λ i x, ((n + i)%nat, x)) toks) cur).
Proof.
  assert (∀ (n : nat) (cur : list (nat * string)),
            cur ≠ [] → cur.*1 = seq (n - length cur) (length cur) →
            (length cur ≤ n)%nat →
            cur.*1 ≠ [] ∧ (∃ a, cur.*1 = seq a (length cur.*1))
            ∧ run_bounds cur.*1
              = (Z.of_nat (n - length cur), Z.of_nat (n - 1))) as Hcur.
  { intros n cur Hne Hseq Hlen.
    assert (0 < length cur)%nat by (destruct cur; [done|simpl; lia]).
    split; [by destruct cur|]. split.
    - exists (n - length cur)%nat. by rewrite length_fmap.
    - rewrite Hseq, run_bounds_seq by done. repeat f_equal. lia. }
  induction toks as [|t toks IH]; intros n cur Hseq Hlen.
  - cbn [imap group_runs].
    destruct (decide (cur ≠ [])) as [Hne|Hne]; cbn [fmap list_fmap].
    + destruct (Hcur n cur Hne Hseq Hlen) as (? & ? & Hb).
      split; [by apply Forall_singleton|].
      split; [by repeat constructor|].
      apply Forall_singleton. rewrite Hb. simpl. lia.
    + by repeat constructor.
  - rewrite items_from_cons. cbn [group_runs snd].
    destruct (decide (t ≠ "null")) as [Ht|Ht].
    + destruct (IH (Datatypes.S n) (cur ++ [(n, t)])) as (IH1 & IH2 & IH3).
      * rewrite fmap_app, Hseq, length_app. simpl.
        replace (Datatypes.S n - (length cur + 1))%nat with (n - length cur)%nat
          by lia.
        rewrite Nat.add_1_r, seq_S. do 2 f_equal. lia.
      * rewrite length_app. simpl. lia.
      * split; [done|]. split; [done|].
        eapply Forall_impl; [exact IH3|]. intros ir. simpl.
        rewrite length_app. simpl. lia.
    + destruct (IH (Datatypes.S n) []) as (IH1 & IH2 & IH3); [done|simpl; lia|].
      rewrite !fmap_app.
      destruct (decide (cur ≠ [])) as [Hne|Hne];
        cbn [fmap list_fmap app length] in *.
      * destruct (Hcur n cur Hne Hseq Hlen) as (Hne' & Hex & Hb).
        split; [by constructor|]. split.
        -- constructor; [done|].
           destruct (group_runs _ []) as [|r R] eqn:HR;
             cbn [fmap list_fmap] in *; constructor.
           apply Forall_cons in IH1 as [[Hr [a Ha]] _].
           apply Forall_cons in IH3 as [Hlo _].
           assert (0 < length r.*1)%nat by (destruct r.*1; [done|simpl; lia]).
           rewrite Ha, run_bounds_seq in Hlo |- * by done.
           rewrite Hb. unfold gap_before. simpl in *.
           assert (0 < length cur)%nat by (destruct cur; [done|simpl; lia]).
           lia.
        -- constructor; [rewrite Hb; simpl; lia|].
           eapply Forall_impl; [exact IH3|]. intros ir. simpl. lia.
      * split; [done|]. split; [done|].
        eapply Forall_impl; [exact IH3|]. intros ir. simpl. lia.
Qed.

Lemma concat_fmap_fmap {A B} (f : A → B) (ls : list (list A)) :
  concat ((λ l : list A, f <$> l) <$> ls) = f <$> concat ls.
Proof.
  induction ls as [|l ls IH]; [done|].
  rewrite fmap_cons. cbn [concat]. by rewrite IH, fmap_app.
Qed.

Section RunsProperties.
Context `{Builtins}.

Lemma remove_nulls2_group positions index_list toks :
  convert_to_str positions "null" = Returns toks →
  remove_nulls2 positions index_list
  = Returns ((λ run : list (nat * string), run.*2)
               <$> group_runs (enumerate toks) [],
             if decide (length index_list ≠ 0%nat)
             then (λ run : list (nat * string), run.*1)
                    <$> group_runs (enumerate toks) []
             else []).
Proof.
  intros Htoks. unfold remove_nulls2. rewrite Htoks. simpl.
  destruct (remove_nulls2_loop index_list (enumerate toks)
              (RunsState [] [] [] []) []) as [Hpos Hind];
    [done|by destruct (decide (length index_list ≠ 0%nat))|].
  unfold flush_run in Hpos, Hind. rewrite Hpos, Hind. simpl.
  by destruct (decide (length index_list ≠ 0%nat)).
Qed.

End RunsProperties.

(** X5.  When the positions normalize to [toks], [remove_nulls2] cuts the
    kept tokens into runs: no run is empty, and the runs (and index runs)
    joined are what [remove_nulls] returns.  With a non-empty [index_list],
    every index run lists the indices of the tokens of its run, these are
    consecutive indices, and the pairs (first, last) of the index runs are
    what [ranges] returns on the kept indices: the runs are the maximal
    stretches without a missing token. *)
Theorem remove_nulls2_runs `{Builtins} (positions : list pyval)
    (index_list : list Z) (toks : list string) :
  convert_to_str positions "null" = Returns toks →
  ∃ runs iruns,
    remove_nulls2 positions index_list = Returns (runs, iruns)
    ∧ Forall (λ run, run ≠ []) runs
    ∧ remove_nulls positions index_list = Returns (concat runs, concat iruns)
    ∧ (index_list = [] → iruns = [])
    ∧ (index_list ≠ [] →
       Forall2 (λ run irun, Forall2 (λ t i, toks !! i = Some t) run irun)
               runs iruns
       ∧ Forall (λ irun, ∃ a, irun = seq a (length irun)) iruns
       ∧ ranges (Z.of_nat <$> concat iruns) = run_bounds <$> iruns).
Proof.
  intros Htoks. eexists _, _.
  split; [by apply remove_nulls2_group|].
  pose proof (group_runs_concat (enumerate toks) []) as Hconcat.
  simpl in Hconcat. fold (kept toks) in Hconcat.
  split.
  { apply Forall_fmap. eapply Forall_impl; [apply group_runs_nonempty|].
    intros run Hrun. simpl. by destruct run. }
  split.
  { rewrite (remove_nulls_kept _ _ toks) by done.
    rewrite concat_fmap_fmap, Hconcat.
    destruct (decide (length index_list ≠ 0%nat)); [|done].
    by rewrite concat_fmap_fmap, Hconcat. }
  split; [by intros ->|].
  intros Hne.
  assert (length index_list ≠ 0%nat) as Hlen by (by destruct index_list).
  rewrite decide_True by done.
  destruct (group_runs_indices toks 0 []) as (Hruns & Hsorted & _);
    [done|simpl; lia|].
  change (imap (λ i x, ((0 + i)%nat, x)) toks) with (enumerate toks)
    in Hruns, Hsorted.
  split; [|split].
  - apply Forall2_fmap, Forall_Forall2_diag, Forall_forall.
    intros run Hrun. apply Forall2_fmap, Forall_Forall2_diag, Forall_forall.
    intros [i t] Hit. simpl. apply elem_of_kept. rewrite <- Hconcat.
    apply elem_of_concat. by exists run.
  - eapply Forall_impl; [exact Hruns|]. by intros irun [_ ?].
  - destruct (ranges_chain (Z.of_nat <$> concat
                ((λ run : list (nat * string), run.*1)
                   <$> group_runs (enumerate toks) [])))
      as (Hr & Hrwf & Hrcover).
    eapply chain_unique; [exact Hr|exact Hrwf|exact Hrcover|..].
    + by apply Sorted_StronglySorted; [apply _|].
    + apply Forall_fmap. eapply Forall_impl; [exact Hruns|].
      intros irun [Hirun [a Ha]]. unfold compose.
      assert (0 < length irun)%nat by (destruct irun; [done|simpl; lia]).
      rewrite Ha, run_bounds_seq by done. simpl. lia.
    + intros z. rewrite list_elem_of_fmap. unfold covers.
      rewrite Forall_forall in Hruns. split.
      * intros (i & -> & (irun & Hi & Hirun)%elem_of_concat).
        exists (run_bounds irun). split; [apply list_elem_of_fmap; eauto|].
        destruct (Hruns irun Hirun) as [Hne' [a Ha]].
        assert (0 < length irun)%nat by (destruct irun; [done|simpl; lia]).
        rewrite Ha in Hi |- *. rewrite run_bounds_seq by done.
        apply elem_of_seq in Hi. simpl. lia.
      * intros (x & (irun & -> & Hirun)%list_elem_of_fmap & Hz).
        destruct (Hruns irun Hirun) as [Hne' [a Ha]].
        assert (0 < length irun)%nat by (destruct irun; [done|simpl; lia]).
        rewrite Ha, run_bounds_seq in Hz by done. simpl in Hz.
        exists (Z.to_nat z). split; [lia|].
        apply elem_of_concat. exists irun. split; [|done].
        rewrite Ha. apply elem_of_seq. lia.
Qed.

Lemma remove_nulls2_runs_witness :
  let positions :=
    [PyStr "null"; PyInt 11; PyInt 12; PyNaN; PyStr "null"; PyInt 16] in
  let toks := ["null"; "11"; "12"; "null"; "null"; "16"] in
  ∃ runs iruns,
    @remove_nulls2 cpython positions [0] = Returns (runs, iruns)
    ∧ Forall (λ run, run ≠ []) runs
    ∧ @remove_nulls cpython positions [0] = Returns (concat runs, concat iruns)
    ∧ ([0] = [] → iruns = [])
    ∧ ([0] ≠ [] →
       Forall2 (λ run irun, Forall2 (λ t i, toks !! i = Some t) run irun)
               runs iruns
       ∧ Forall (λ irun, ∃ a, irun = seq a (length irun)) iruns
       ∧ ranges (Z.of_nat <$> concat iruns) = run_bounds <$> iruns).
Proof.
  intros positions toks.
  apply (@remove_nulls2_runs cpython positions [0] toks). by vm_compute.
Defined.

(** ** Interval merger on gapped chains *)

Lemma merge_pair_skip (x : interval) (st : merge_state) (y : interval) :
  x1 st ≤ x2 st → x2 st + 1 < y.1 → y.1 ≤ y.2 →
  merge_pair x st y = Returns st.
Proof.
  intros Hst Hgap Hy. unfold merge_pair. destruct y as [y1 y2]. simpl in *.
  replace ((Z.abs (y2 - x1 st) =? 1) || (Z.abs (x2 st - y1) =? 1)) with false
    by (symmetry; apply orb_false_iff; split; apply Z.eqb_neq; lia).
  replace ((x1 st >? y2) || (x2 st <? y1)) with true; [done|].
  symmetry. apply orb_true_iff. right. apply Z.ltb_lt. lia.
Qed.

Lemma merge_inner_skip (x : interval) (st : merge_state) (ys : list interval) :
  x1 st ≤ x2 st →
  Forall (λ y : interval, x2 st + 1 < y.1 ∧ y.1 ≤ y.2) ys →
  merge_inner x st ys = Returns st.
Proof.
  intros Hst. unfold merge_inner. induction 1 as [|y ys [Hgap Hy] _ IH];
    simpl; [done|].
  by rewrite merge_pair_skip.
Qed.

(** On a gapped chain the outer loop appends every element unchanged. *)
Lemma merge_outer_chain (l : list interval) :
  StronglySorted gap_before l →
  Forall (λ s : interval, s.1 ≤ s.2) l →
  ∀ (k i : nat) merged, (length l - i = k)%nat →
    merge_outer i l merged = Returns (merged ++ drop i l).
Proof.
  intros Hchain Hwf. induction k as [|k IH]; intros i merged Hk.
  - rewrite merge_outer_step, (lookup_ge_None_2 l i) by lia.
    by rewrite drop_ge, app_nil_r by lia.
  - destruct (lookup_lt_is_Some_2 l i) as [x Hx]; [lia|].
    rewrite merge_outer_step, Hx.
    rewrite merge_inner_skip.
    + simpl. rewrite IH by lia. rewrite <- app_assoc. simpl.
      rewrite (drop_S l x i Hx). by destruct x.
    + simpl. rewrite Forall_forall in Hwf. apply Hwf.
      by eapply list_elem_of_lookup_2.
    + simpl. rewrite <- (take_drop_middle l i x) in Hchain by done.
      apply StronglySorted_app_1_r, StronglySorted_inv in Hchain as [_ Hx'].
      eapply Forall_impl; [exact Hx'|].
      intros y. unfold gap_before. lia.
Qed.

Lemma merge_gapped_chain (l l' : list interval) :
  StronglySorted gap_before l →
  Forall (λ s : interval, s.1 ≤ s.2) l →
  l' ≡ₚ l →
  merge_overlapping_tuples l' = Returns l.
Proof.
  intros Hchain Hwf Hperm. unfold merge_overlapping_tuples.
  assert (merge_sort tuple_le l' = l) as ->.
  { apply (Sorted_unique tuple_le).
    - apply Sorted_merge_sort, _.
    - apply StronglySorted_Sorted.
      apply (StronglySorted_weaken gap_before); [|done].
      intros [a b] [c d]. unfold gap_before, tuple_le. simpl. lia.
    - by rewrite merge_sort_Permutation. }
  by rewrite (merge_outer_chain l Hchain Hwf (length l) 0) by lia.
Qed.

(** X6.  A list of well-formed intervals that follow one another with gaps
    is a fixed point of the merger: given in any order, it comes back
    unchanged and in ascending order. *)
Theorem merge_overlapping_tuples_gapped (l l' : list interval) :
  StronglySorted gap_before l →
  Forall (λ s : interval, s.1 ≤ s.2) l →
  l' ≡ₚ l →
  merge_overlapping_tuples l' = Returns l.
Proof. apply merge_gapped_chain. Qed.

Lemma merge_overlapping_tuples_gapped_witness :
  merge_overlapping_tuples [(15, 25); (1, 2); (5, 10)]
  = Returns [(1, 2); (5, 10); (15, 25)].
Proof.
  apply merge_overlapping_tuples_gapped; by apply (bool_decide_unpack _).
Defined.

(** X7.  The intervals that [ranges] extracts need no merging:
    [merge_overlapping_tuples] returns them unchanged, whatever the positions
    they were extracted from. *)
Theorem merge_overlapping_tuples_ranges (positions : list Z) :
  merge_overlapping_tuples (ranges positions) = Returns (ranges positions).
Proof.
  destruct (ranges_chain positions) as (Hchain & Hwf & _).
  by apply merge_gapped_chain.
Qed.

(** ** Intersections, overlaps and unions of positions *)

Lemma ascending_unique (l1 l2 : list Z) :
  StronglySorted Z.lt l1 → StronglySorted Z.lt l2 →
  (∀ z, z ∈ l1 ↔ z ∈ l2) → l1 = l2.
Proof.
  intros Hs1 Hs2 Hel.
  apply (StronglySorted_unique_strong Z.lt); [intros; lia|done..|].
  apply NoDup_Permutation; [| |done];
    by eapply (StronglySorted_NoDup Z.lt); [intros; lia|].
Qed.

Lemma sort_ascending (l : list Z) :
  NoDup l → StronglySorted Z.lt (merge_sort Z.le l).
Proof.
  intros Hnd.
  assert (NoDup (merge_sort Z.le l)) as Hnd'
    by (by rewrite merge_sort_Permutation).
  pose proof (StronglySorted_merge_sort Z.le l) as Hs.
  induction Hs as [|x k Hs IH Hx]; [constructor|].
  apply NoDup_cons in Hnd' as [Hxk Hnd']. constructor; [by apply IH|].
  apply Forall_forall. intros z Hz.
  rewrite Forall_forall in Hx. specialize (Hx z Hz).
  assert (x ≠ z) by (by intros ->). lia.
Qed.

Lemma set_intersection_NoDup (a b : list Z) : NoDup (set_intersection a b).
Proof. apply NoDup_filter, NoDup_remove_dups. Qed.

Lemma elem_of_set_intersection (a b : list Z) (z : Z) :
  z ∈ set_intersection a b ↔ z ∈ a ∧ z ∈ b.
Proof.
  unfold set_intersection. rewrite list_elem_of_filter, elem_of_remove_dups.
  tauto.
Qed.

(** Whichever list is made the set, the result is the same. *)
Lemma get_intersection_sorted (pos_x pos_y : list Z) :
  get_intersection pos_x pos_y = merge_sort Z.le (set_intersection pos_x pos_y).
Proof.
  unfold get_intersection. destruct (length pos_y <? length pos_x)%nat; [done|].
  apply ascending_unique; try (apply sort_ascending, set_intersection_NoDup).
  intros z. rewrite !merge_sort_Permutation, !elem_of_set_intersection. tauto.
Qed.

Lemma get_intersection_ascending (pos_x pos_y : list Z) :
  StronglySorted Z.lt (get_intersection pos_x pos_y).
Proof.
  rewrite get_intersection_sorted.
  apply sort_ascending, set_intersection_NoDup.
Qed.

(** X8.  [get_intersection] returns, in strictly ascending order, exactly
    the values that occur in both lists; the two arguments can be swapped. *)
Theorem get_intersection_common (pos_x pos_y : list Z) :
  StronglySorted Z.lt (get_intersection pos_x pos_y)
  ∧ (∀ z, z ∈ get_intersection pos_x pos_y ↔ z ∈ pos_x ∧ z ∈ pos_y)
  ∧ get_intersection pos_x pos_y = get_intersection pos_y pos_x.
Proof.
  split; [apply get_intersection_ascending|].
  rewrite !get_intersection_sorted. split.
  - intros z. by rewrite merge_sort_Permutation, elem_of_set_intersection.
  - apply ascending_unique; try (apply sort_ascending, set_intersection_NoDup).
    intros z. rewrite !merge_sort_Permutation, !elem_of_set_intersection. tauto.
Qed.

Lemma getitem_first {A} (x : A) (l : list A) : getitem (x :: l) 0 = Returns x.
Proof. by apply (getitem_nat (x :: l) 0%nat). Qed.

Lemma getitem_last {A} (l : list A) (x : A) :
  last l = Some x → getitem l (-1) = Returns x.
Proof.
  intros Hlast. unfold getitem. cbv zeta.
  assert (0 < length l)%nat by (destruct l; [done|simpl; lia]).
  replace (-1 <? 0) with true by done.
  replace ((-1 + Z.of_nat (length l) <? 0)
           || (Z.of_nat (length l) <=? -1 + Z.of_nat (length l))) with false
    by (symmetry; apply orb_false_iff;
        split; [apply Z.ltb_ge|apply Z.leb_gt]; lia).
  rewrite last_lookup in Hlast.
  replace (Z.to_nat (-1 + Z.of_nat (length l))) with (pred (length l)) by lia.
  by rewrite Hlast.
Qed.

Lemma getitem_nil {A} (i : Z) : getitem (@nil A) i = Raises IndexError.
Proof.
  unfold getitem. cbv zeta. simpl.
  destruct (_ || _) eqn:Hb; [done|].
  apply orb_false_iff in Hb as [H1 H2].
  apply Z.ltb_ge in H1. apply Z.leb_gt in H2. lia.
Qed.

Lemma seq_ascending (s k : nat) : StronglySorted lt (seq s k).
Proof.
  revert s. induction k as [|k IH]; intros s; simpl; constructor; [done|].
  apply Forall_forall. intros j Hj. apply elem_of_seq in Hj. lia.
Qed.

Lemma seqZ_ascending (m n : Z) : StronglySorted Z.lt (seqZ m n).
Proof.
  unfold seqZ. apply (StronglySorted_fmap _ lt); [intros; lia|].
  apply seq_ascending.
Qed.

Lemma getitem_seqZ_first (m n : Z) :
  0 < n → getitem (seqZ m n) 0 = Returns m.
Proof. intros Hn. rewrite seqZ_cons by done. apply getitem_first. Qed.

Lemma getitem_seqZ_last (m n : Z) :
  0 < n → getitem (seqZ m n) (-1) = Returns (m + n - 1).
Proof.
  intros Hn. apply getitem_last. rewrite last_lookup, length_seqZ.
  rewrite lookup_seqZ_lt by lia. f_equal. lia.
Qed.

(** Two runs of consecutive positions meet in a run of consecutive
    positions. *)
Lemma get_intersection_seqZ (m1 n1 m2 n2 : Z) :
  get_intersection (seqZ m1 n1) (seqZ m2 n2)
  = seqZ (Z.max m1 m2) (Z.min (m1 + n1) (m2 + n2) - Z.max m1 m2).
Proof.
  apply ascending_unique;
    [apply get_intersection_ascending|apply seqZ_ascending|].
  intros z.
  rewrite get_intersection_sorted, merge_sort_Permutation,
    elem_of_set_intersection, !elem_of_seqZ.
  lia.
Qed.

(** X9.  On two non-empty runs of consecutive positions, which is what
    [check_for_overlap] assumes, it returns and answers whether the runs
    share a position, or, when the boundary is ignored, whether they share
    at least two: the answer agrees with the size of [get_intersection]. *)
Theorem check_for_overlap_contiguous (m1 n1 m2 n2 : Z) (ignore_boundary : bool) :
  0 < n1 → 0 < n2 →
  check_for_overlap (seqZ m1 n1) (seqZ m2 n2) ignore_boundary
  = Returns (bool_decide
      ((if ignore_boundary then 2 else 1)
       ≤ Z.of_nat (length (get_intersection (seqZ m1 n1) (seqZ m2 n2))))).
Proof.
  intros Hn1 Hn2. unfold check_for_overlap. cbv zeta.
  rewrite !getitem_seqZ_first, !getitem_seqZ_last by done. simpl.
  unfold mret, outcome_ret. f_equal.
  rewrite get_intersection_seqZ, length_seqZ.
  rewrite Z.gtb_ltb.
  destruct ignore_boundary; case_bool_decide as Hd;
    [apply Z.ltb_lt|apply Z.ltb_ge|apply Z.ltb_lt|apply Z.ltb_ge]; lia.
Qed.

Lemma check_for_overlap_contiguous_witness :
  check_for_overlap (seqZ 1 4) (seqZ 4 4) true = Returns false
  ∧ check_for_overlap (seqZ 1 4) (seqZ 4 4) false = Returns true.
Proof.
  split.
  - by rewrite (check_for_overlap_contiguous 1 4 4 4 true) by lia.
  - by rewrite (check_for_overlap_contiguous 1 4 4 4 false) by lia.
Defined.

(** X10.  [check_for_overlap] reads the first and the last element of each
    list only.  It raises, an [IndexError], exactly when one of the lists
    is empty; it does not depend on the order of its two arguments. *)
Theorem check_for_overlap_endpoints (uni_pos1 uni_pos2 : list Z)
    (ignore_boundary : bool) :
  (check_for_overlap uni_pos1 uni_pos2 ignore_boundary = Raises IndexError
   ↔ uni_pos1 = [] ∨ uni_pos2 = [])
  ∧ (∀ s1 e1 s2 e2,
       head uni_pos1 = Some s1 → last uni_pos1 = Some e1 →
       head uni_pos2 = Some s2 → last uni_pos2 = Some e2 →
       check_for_overlap uni_pos1 uni_pos2 ignore_boundary
       = Returns (bool_decide
           (Z.max s1 s2 + (if ignore_boundary then 1 else 0) ≤ Z.min e1 e2)))
  ∧ check_for_overlap uni_pos1 uni_pos2 ignore_boundary
    = check_for_overlap uni_pos2 uni_pos1 ignore_boundary.
Proof.
  assert (∀ p1 p2 s1 e1 s2 e2,
    head p1 = Some s1 → last p1 = Some e1 →
    head p2 = Some s2 → last p2 = Some e2 →
    check_for_overlap p1 p2 ignore_boundary
    = Returns (bool_decide
        (Z.max s1 s2 + (if ignore_boundary then 1 else 0) ≤ Z.min e1 e2)))
    as Hends.
  { intros p1 p2 s1 e1 s2 e2 Hs1 He1 Hs2 He2. unfold check_for_overlap.
    cbv zeta. destruct p1 as [|a p1]; [done|]. destruct p2 as [|b p2]; [done|].
    simpl in Hs1, Hs2. simplify_eq. rewrite !getitem_first.
    rewrite (getitem_last _ _ He1), (getitem_last _ _ He2). simpl.
    unfold mret, outcome_ret. f_equal.
    rewrite Z.gtb_ltb.
    destruct ignore_boundary; case_bool_decide;
      [apply Z.ltb_lt|apply Z.ltb_ge|apply Z.ltb_lt|apply Z.ltb_ge]; lia. }
  assert (∀ p : list Z, p ≠ [] → ∃ s e, head p = Some s ∧ last p = Some e)
    as Hne.
  { intros [|a p] Hp; [done|]. exists a. simpl head.
    destruct (last (a :: p)) as [e|] eqn:He; [by eauto|].
    by apply last_None in He. }
  split; [|split].
  - split.
    + intros Hr. destruct (decide (uni_pos1 = [])) as [|H1]; [by left|].
      destruct (decide (uni_pos2 = [])) as [|H2]; [by right|].
      destruct (Hne _ H1) as (s1 & e1 & Hs1 & He1).
      destruct (Hne _ H2) as (s2 & e2 & Hs2 & He2).
      by rewrite (Hends _ _ _ _ _ _ Hs1 He1 Hs2 He2) in Hr.
    + unfold check_for_overlap. cbv zeta. intros [-> | ->].
      * by rewrite ?getitem_nil.
      * destruct (decide (uni_pos1 = [])) as [->|H1];
          [by rewrite ?getitem_nil|].
        destruct (Hne _ H1) as (s1 & e1 & Hs1 & He1).
        destruct uni_pos1 as [|a p1]; [done|].
        rewrite getitem_first, (getitem_last _ _ He1). simpl.
        by rewrite ?getitem_nil.
  - apply Hends.
  - destruct (decide (uni_pos1 = [])) as [->|H1].
    { unfold check_for_overlap. cbv zeta. rewrite ?getitem_nil. simpl.
      destruct (decide (uni_pos2 = [])) as [->|H2];
        [by rewrite ?getitem_nil|].
      destruct (Hne _ H2) as (s2 & e2 & Hs2 & He2).
      destruct uni_pos2 as [|b p2]; [done|].
      rewrite getitem_first, (getitem_last _ _ He2). simpl.
      by rewrite ?getitem_nil. }
    destruct (decide (uni_pos2 = [])) as [->|H2].
    { unfold check_for_overlap. cbv zeta. rewrite ?getitem_nil. simpl.
      destruct (Hne _ H1) as (s1 & e1 & Hs1 & He1).
      destruct uni_pos1 as [|a p1]; [done|].
      rewrite getitem_first, (getitem_last _ _ He1). simpl.
      by rewrite ?getitem_nil. }
    destruct (Hne _ H1) as (s1 & e1 & Hs1 & He1).
    destruct (Hne _ H2) as (s2 & e2 & Hs2 & He2).
    rewrite (Hends _ _ _ _ _ _ Hs1 He1 Hs2 He2),
      (Hends _ _ _ _ _ _ Hs2 He2 Hs1 He1).
    f_equal. apply bool_decide_ext. lia.
Qed.

Lemma check_for_overlap_endpoints_witness :
  check_for_overlap [1; 9] [5; 6] true = Returns true.
Proof.
  by apply (proj1 (proj2 (check_for_overlap_endpoints [1; 9] [5; 6] true))
              1 9 5 6).
Defined.






(** ** Sequence encoders *)

Lemma for_loop_map {A B} (f : A → outcome B) (g : A → B) xs : ∀ acc,
  Forall (λ x, f x = Returns (g x)) xs →
  for_loop (λ acc x, y ← f x; mret (acc ++ [y])) acc xs
  = Returns (acc ++ (g <$> xs)).
Proof.
  induction xs as [|x xs IH]; intros acc Hxs; simpl.
  - by rewrite app_nil_r.
  - apply Forall_cons in Hxs as [Hx Hxs]. rewrite Hx. simpl.
    rewrite IH by done. by rewrite <-app_assoc.
Qed.

Lemma for_loop_pad {A B} (pad : outcome B) (y : B) (xs : list A) acc :
  pad = Returns y →
  for_loop (λ acc _, tok ← pad; mret (acc ++ [tok])) acc xs
  = Returns (acc ++ replicate (length xs) y).
Proof.
  intros Hpad.
  rewrite (for_loop_map (λ _, pad) (λ _, y)) by by apply Forall_true.
  by rewrite (const_fmap _ xs y).
Qed.

Lemma chars_single (seq : string) :
  Forall (λ res, ∃ c, res = String c EmptyString) (chars seq).
Proof. induction seq; simpl; constructor; eauto. Qed.

Lemma length_chars (seq : string) : length (chars seq) = String.length seq.
Proof. induction seq; simpl; congruence. Qed.

Lemma chunks_rows {A} (rows : list (list A)) (cols : nat) :
  Forall (λ row, length row = cols) rows →
  chunks (length rows) cols (concat rows) = rows.
Proof.
  induction 1 as [|row rows Hrow Hrows IH]; simpl; [done|].
  rewrite take_app_length', drop_app_length' by done. by rewrite IH.
Qed.

(** Rows of the right width, in the right number, are what [reshape]
    returns. *)
Lemma reshape_rows {A} (rows : list (list A)) (cols : nat) :
  (0 < cols)%nat → Forall (λ row, length row = cols) rows →
  reshape rows (Z.of_nat (length rows)) (Z.of_nat cols) = Returns rows.
Proof.
  intros Hcols Hrows. unfold reshape. cbv zeta.
  assert (length (concat rows) = (length rows * cols)%nat) as Hsize.
  { induction Hrows as [|row rows Hrow Hrows IH]; simpl; [done|].
    rewrite length_app, IH, Hrow. lia. }
  rewrite Hsize.
  replace (Z.of_nat (length rows) =? -1) with false
    by (symmetry; apply Z.eqb_neq; lia).
  replace (Z.of_nat (length rows) <? 0) with false
    by (symmetry; apply Z.ltb_ge; lia).
  replace (Z.of_nat (length rows) * Z.of_nat cols
           =? Z.of_nat (length rows * cols)) with true
    by (symmetry; apply Z.eqb_eq; lia).
  simpl. rewrite !Nat2Z.id. by rewrite chunks_rows.
Qed.

Lemma token_of_residue (c : ascii) :
  let res := String c EmptyString in
  (if decide (create_tokens.1 !! res = None)
   then dict_get create_tokens.1 "X"
   else dict_get create_tokens.1 res) = Returns (residue_token res)
  ∧ 1 ≤ residue_token res ≤ 21
  ∧ decode_token (residue_token res) = known_residue res.
Proof.
  destruct c as [[] [] [] [] [] [] [] []]; vm_compute; repeat split; congruence.
Qed.

Lemma token_of_pads : dict_get create_tokens.1 "PADS" = Returns 22.
Proof. by vm_compute. Qed.

(** X12.  [tokenizer] always returns.  Its rows are one token each: first
    the tokens of the residues of [seq], in order and each between 1 and
    21, then, when [max_len] is given and larger than the sequence, the
    padding token 22 up to [max_len] rows.  A sequence longer than
    [max_len] is not cut. *)
Theorem tokenizer_rows (seq : string) (max_len : option Z) :
  let pads := Z.to_nat (default 0 max_len - Z.of_nat (String.length seq)) in
  tokenizer seq max_len
  = Returns (((λ res, [residue_token res]) <$> chars seq)
             ++ replicate pads [22])
  ∧ Forall (λ res, 1 ≤ residue_token res ≤ 21) (chars seq)
  ∧ Z.of_nat (length (chars seq) + pads)
    = Z.max (Z.of_nat (String.length seq)) (default 0 max_len).
Proof.
  cbv zeta. split; [|split].
  - unfold tokenizer. cbv zeta.
    rewrite (for_loop_map
      (λ res, if decide (create_tokens.1 !! res = None)
              then dict_get create_tokens.1 "X"
              else dict_get create_tokens.1 res) residue_token).
    2:{ eapply Forall_impl; [apply chars_single|].
        intros res [c ->]. apply token_of_residue. }
    rewrite app_nil_l. step_bind.
    assert (∀ (toks : list Z) (n : Z), n = Z.of_nat (length toks) →
      reshape ((λ tok, [tok]) <$> toks) n 1
      = Returns ((λ tok, [tok]) <$> toks)) as Hreshape.
    { intros toks n ->.
      rewrite <-(length_fmap (λ tok, [tok]) toks) at 1.
      apply (reshape_rows _ 1); [lia|]. apply Forall_fmap. by apply Forall_true. }
    destruct max_len as [max_len|]; simpl default.
    + destruct (_ <? max_len) eqn:Hlt;
        [apply Z.ltb_lt in Hlt|apply Z.ltb_ge in Hlt].
      * rewrite (for_loop_pad _ 22) by apply token_of_pads.
        step_bind. step_bind. rewrite length_seqZ.
        rewrite Hreshape
          by (rewrite length_app, length_fmap, length_chars, length_replicate;
              lia).
        by rewrite fmap_app, fmap_replicate, <-list_fmap_compose.
      * step_bind.
        rewrite Hreshape by (by rewrite length_fmap, length_chars).
        replace (Z.to_nat _) with 0%nat by lia.
        by rewrite app_nil_r, <-list_fmap_compose.
    + step_bind.
      rewrite Hreshape by (by rewrite length_fmap, length_chars).
      replace (Z.to_nat _) with 0%nat by lia.
      by rewrite app_nil_r, <-list_fmap_compose.
  - eapply Forall_impl; [apply chars_single|].
    intros res [c ->]. apply token_of_residue.
  - rewrite length_chars. lia.
Qed.

(** X13.  Reading the tokens of [tokenizer seq] back through
    [AMINO_ACIDS], the second value [create_tokens] returns, gives the
    sequence again, with every character outside the alphabet replaced by
    ["X"]. *)
Theorem tokenizer_decode (seq : string) :
  ∃ rows, tokenizer seq None = Returns rows
    ∧ create_tokens.2 = AMINO_ACIDS
    ∧ decode_token <$> concat rows = known_residue <$> chars seq.
Proof.
  unfold tokenizer. cbv zeta.
  rewrite (for_loop_map
    (λ res, if decide (create_tokens.1 !! res = None)
            then dict_get create_tokens.1 "X"
            else dict_get create_tokens.1 res) residue_token).
  2:{ eapply Forall_impl; [apply chars_single|].
      intros res [c ->]. apply token_of_residue. }
  rewrite app_nil_l. step_bind. step_bind.
  rewrite <-length_chars, <-(length_fmap residue_token),
    <-(length_fmap (λ tok, [tok])).
  rewrite (reshape_rows _ 1);
    [|lia|apply Forall_fmap; by apply Forall_true].
  eexists. split; [done|]. split; [done|].
  pose proof (chars_single seq) as Hs.
  induction Hs as [|res l [c ->] Hl IH]; [done|].
  rewrite !fmap_cons. simpl concat. rewrite fmap_cons, IH. f_equal.
  apply token_of_residue.
Qed.









(** ** Counting missing residues *)

Lemma contains_null_n (s : string) :
  Forall (λ res, res ≠ "n") (chars s) → contains "null" s = false.
Proof.
  induction s as [|c s IH]; [done|]. simpl chars. intros [Hc Hs]%Forall_cons.
  simpl. rewrite (IH Hs), orb_false_r.
  rewrite bool_decide_eq_false_2; [done|]. by intros <-.
Qed.

Lemma pretty_N_go_n (x : N) : ∀ s,
  Forall (λ res, res ≠ "n") (chars s) →
  Forall (λ res, res ≠ "n") (chars (pretty_N_go x s)).
Proof.
  induction (N.lt_wf_0 x) as [x _ IH]; intros s Hs.
  destruct (decide (x = 0)%N) as [->|Hx]; [done|].
  rewrite pretty_N_go_step by lia.
  apply IH; [apply N.div_lt; lia|]. simpl chars. constructor; [|done].
  intros [= Hc]. pose proof (pretty_N_char_digit (x `mod` 10)) as Hd.
  by rewrite Hc in Hd.
Qed.

(** The decimal form of an int does not contain "null". *)
Lemma str_contains_null (z : Z) : contains "null" (str z) = false.
Proof.
  apply contains_null_n. unfold str, pretty, pretty_Z.
  assert (∀ x : N, Forall (λ res, res ≠ "n") (chars (pretty x))) as Hpos.
  { intros x. unfold pretty, pretty_N. case_decide.
    - by repeat constructor.
    - by apply pretty_N_go_n. }
  destruct z as [|q|q]; [by repeat constructor|apply Hpos|].
  simpl chars. constructor; [done|apply Hpos].
Qed.

Lemma count_missing_residues_step (v : pyval) (count : Z) :
  match v with
  | PyNaN => count + 1
  | PyInt z => if contains "null" (str z) then count + 1 else count
  | PyStr s => if contains "null" s then count + 1 else count
  end
  = count + (if decide (is_missing v) then 1 else 0)
          + (if mentions_null v then 1 else 0).
Proof.
  unfold mentions_null.
  destruct (decide (is_missing v)) as [[-> | ->]|Hv].
  - lia.
  - replace (contains "null" "null") with true by done.
    rewrite bool_decide_eq_false_2 by (by intros ?). simpl. lia.
  - destruct v as [|z|s].
    + destruct Hv. by left.
    + rewrite str_contains_null. lia.
    + rewrite bool_decide_eq_true_2 by (intros ->; destruct Hv; by right).
      destruct (contains "null" s); simpl; lia.
Qed.

(** X15.  [count_missing_residues] counts the positions that
    [convert_to_str] turns into "null", which are NaN / None and the string
    "null", and on top of them every other string that contains "null":
    such a string counts as missing here while [convert_to_str] keeps its
    digits as a position. *)
Theorem count_missing_residues_nulls `{Builtins} (positions : list pyval) :
  count_missing_residues positions
  = Z.of_nat (length (filter is_missing positions)
              + length (filter (λ v, mentions_null v = true) positions))
  ∧ (∀ toks, convert_to_str positions "null" = Returns toks →
       length (filter (.= "null") toks)
       = length (filter is_missing positions)).
Proof.
  split.
  - unfold count_missing_residues.
    assert (∀ count,
      fold_left (λ count pos,
                   match pos with
                   | PyNaN => count + 1
                   | PyInt z =>
                       if contains "null" (str z) then count + 1 else count
                   | PyStr s => if contains "null" s then count + 1 else count
                   end) positions count
      = count + Z.of_nat (length (filter is_missing positions)
                  + length (filter (λ v, mentions_null v = true) positions)))
      as Hfold; [|by rewrite Hfold].
    induction positions as [|v positions IH]; intros count; simpl fold_left.
    + simpl. lia.
    + rewrite IH, count_missing_residues_step, !filter_cons.
      destruct (decide (is_missing v)); destruct (mentions_null v);
        repeat case_decide; try done; simpl length; lia.
  - intros toks Htoks%convert_to_str_Returns.
    induction Htoks as [|v t positions toks Ht Htoks IH]; [done|].
    rewrite !filter_cons.
    destruct (decide (is_missing v)) as [Hv|Hv].
    + rewrite (convert_token_missing _ _ Hv) in Ht. injection Ht as <-.
      rewrite decide_True by done. simpl. by rewrite IH.
    + pose proof (convert_token_not_missing _ _ _ Ht Hv).
      by rewrite decide_False.
Qed.

Lemma count_missing_residues_nulls_witness :
  count_missing_residues [PyNaN; PyStr "5 null"; PyInt 7; PyStr "null"] = 3
  ∧ length (filter (.= "null") ["null"; "5"; "7"; "null"]) = 2%nat.
Proof.
  pose proof (@count_missing_residues_nulls cpython
    [PyNaN; PyStr "5 null"; PyInt 7; PyStr "null"]) as [Hcount Htoks].
  split; [by rewrite Hcount|].
  by rewrite (Htoks ["null"; "5"; "7"; "null"]) by by vm_compute.
Defined.

(** ** Gap filler *)

Lemma length_list_insert_at {A} (i : nat) (x : A) (l : list A) :
  length (list_insert_at i x l) = Datatypes.S (length l).
Proof.
  unfold list_insert_at. rewrite length_app. simpl.
  rewrite length_take, length_drop. lia.
Qed.

Lemma list_insert_at_Permutation {A} (i : nat) (x : A) (l : list A) :
  list_insert_at i x l ≡ₚ x :: l.
Proof.
  unfold list_insert_at. rewrite <-Permutation_middle.
  by rewrite take_drop.
Qed.

Lemma list_insert_at_length {A} (x : A) (l k : list A) :
  list_insert_at (length l) x (l ++ k) = (l ++ [x]) ++ k.
Proof.
  unfold list_insert_at.
  by rewrite take_app_length, drop_app_length, <-app_assoc.
Qed.

Section GapFillerProperties.
Context `{Builtins}.

Lemma add_gaps_step_Returns add target_pos i res1 target_pos' :
  add_gaps_step add target_pos (i, res1) = Returns target_pos' →
  target_pos' = target_pos ∨ target_pos' = list_insert_at i add target_pos.
Proof.
  unfold add_gaps_step, mret, outcome_ret.
  repeat case_decide; try (intros [= <-]; by right).
  destruct (getitem _ _) as [v|e]; simpl; [|done].
  case_decide; intros [= <-]; auto.
Qed.

(** The first loop only inserts markers: what it returns has as many more
    markers as it is longer, and at most one more per round. *)
Lemma add_gaps_loop_Returns add items : ∀ target_pos target_pos',
  for_loop (add_gaps_step add) target_pos items = Returns target_pos' →
  ∃ k, (k ≤ length items)%nat
    ∧ length target_pos' = (length target_pos + k)%nat
    ∧ length (filter (.= add) target_pos')
      = (length (filter (.= add) target_pos) + k)%nat.
Proof.
  induction items as [|[i res1] items IH]; intros l l'; cbn [for_loop].
  - intros [= <-]. exists 0%nat. simpl. lia.
  - intros (l1 & Hstep & Hloop)%bind_Returns.
    destruct (IH _ _ Hloop) as (k & Hk & Hlen & Hadd).
    destruct (add_gaps_step_Returns _ _ _ _ _ Hstep) as [-> | ->].
    + exists k. simpl. split; [lia|]. done.
    + exists (Datatypes.S k). simpl. split; [lia|].
      rewrite Hlen, Hadd, length_list_insert_at.
      rewrite (list_insert_at_Permutation i add l), filter_cons.
      rewrite decide_True by done. simpl. lia.
Qed.

(** The comprehension inserts one marker into [target] for every marker of
    [target_pos]. *)
Lemma add_gaps_entries_length add items : ∀ target,
  length (fold_left (add_gaps_entry add) items target)
  = (length target + length (filter (.= add) items.*2))%nat.
Proof.
  induction items as [|[i res] items IH]; intros target; [simpl; lia|].
  cbn [fold_left]. rewrite IH, fmap_cons, filter_cons.
  change (add_gaps_entry add target (i, res))
    with (if decide (res = add) then list_insert_at i add target else target).
  change ((i, res).2) with res.
  destruct (decide (res = add)).
  - rewrite length_list_insert_at. simpl. lia.
  - lia.
Qed.

Lemma length_enumerate {A} (l : list A) : length (enumerate l) = length l.
Proof. unfold enumerate. apply length_imap. Qed.

(** X16.  When [add_gaps] returns, the marker [add] does not occur among
    the target positions as [convert_to_str] reads them, and the result is
    the target with between none and one marker per query position added.
    With the default marker "null" the function therefore never returns
    for target positions that have a missing value. *)
Theorem add_gaps_returns (query_pos target_pos target : list pyval)
    (add : string) (out : list string) :
  add_gaps query_pos target_pos target add = Returns out →
  (∀ tp, convert_to_str target_pos "null" = Returns tp → add ∉ tp)
  ∧ (add = "null" → Forall (λ v, ¬ is_missing v) target_pos)
  ∧ (length target ≤ length out ≤ length target + length query_pos)%nat.
Proof.
  unfold add_gaps. case_decide as Hlen; [done|].
  intros (q & Hq & (tp & Htp & (t & Ht & Hout)%bind_Returns)%bind_Returns)
    %bind_Returns.
  apply bind_Returns in Hout as (tp' & Hloop & Hout). cbv zeta in Hout.
  case_decide as Hlen'; [done|].
  injection Hout as <-.
  destruct (add_gaps_loop_Returns _ _ _ _ Hloop) as (k & Hk & Hlen1 & Hadd).
  rewrite add_gaps_entries_length, enumerate_snd in Hlen'.
  rewrite add_gaps_entries_length, enumerate_snd.
  rewrite length_enumerate in Hk.
  pose proof (convert_to_str_length _ _ _ Hq).
  pose proof (convert_to_str_length _ _ _ Htp).
  pose proof (convert_to_str_length _ _ _ Ht).
  assert (length (filter (.= add) tp) = 0%nat) as Hnone by lia.
  assert (add ∉ tp) as Hadd_tp.
  { intros Hin. apply length_zero_iff_nil in Hnone.
    assert (add ∈ filter (.= add) tp) as Hf by (by apply list_elem_of_filter).
    rewrite Hnone in Hf. by apply elem_of_nil in Hf. }
  split; [|split].
  - intros tp0 Htp0. rewrite Htp in Htp0. by injection Htp0 as <-.
  - intros ->. apply Forall_forall. intros v Hv Hmiss.
    apply Hadd_tp. apply (convert_to_str_null _ _ _ Htp). split; [done|].
    apply Exists_exists. eauto.
  - lia.
Qed.

(** One step along the query: its first position is either not a target
    position, or it is the first target position and occurs nowhere else. *)
Lemma present_step (res : string) (q tp : list string) :
  NoDup (present (res :: q)) → tp `sublist_of` present (res :: q) →
  NoDup (present q)
  ∧ (((res ∉ tp) ∧ tp `sublist_of` present q)
     ∨ (res ≠ "null" ∧ (res ∉ q)
        ∧ ∃ tp', tp = res :: tp' ∧ (res ∉ tp') ∧ tp' `sublist_of` present q)).
Proof.
  unfold present. rewrite filter_cons.
  destruct (decide (res ≠ "null")) as [Hres|Hres].
  - intros [Hnew Hnd]%NoDup_cons Hsub. split; [done|].
    assert (res ∉ q) as Hq.
    { intros Hin. apply Hnew. by apply list_elem_of_filter. }
    apply sublist_cons_r in Hsub as [Hsub|(tp' & -> & Hsub)].
    + left. split; [|done]. intros Hin. apply Hnew.
      by eapply elem_of_sublist.
    + right. split; [done|]. split; [done|]. exists tp'.
      split; [done|]. split; [|done]. intros Hin. apply Hnew.
      by eapply elem_of_sublist.
  - intros Hnd Hsub. split; [done|]. left. split; [|done].
    intros Hin. eapply elem_of_sublist in Hin; [|done].
    apply list_elem_of_filter in Hin as [Hin _]. done.
Qed.

Lemma marked_ext (add res : string) (q tp' : list string) :
  res ∉ q →
  (λ r, if decide (r ∈ res :: tp') then r else add) <$> q
  = (λ r, if decide (r ∈ tp') then r else add) <$> q.
Proof.
  intros Hres. apply list_fmap_ext. intros i r Hr.
  assert (r ≠ res) by (intros ->; apply Hres; by eapply list_elem_of_lookup_2).
  destruct (decide (r ∈ tp')).
  - rewrite decide_True; [done|by right].
  - rewrite decide_False; [done|]. by intros [?|?]%elem_of_cons.
Qed.

(** The first pass leaves the query positions that are target positions
    and a marker for every other query position. *)
Lemma add_gaps_loop_marked add (q : list string) : ∀ pre rest,
  NoDup (present q) → add ∉ present q → rest `sublist_of` present q →
  (∀ r, r ∈ present q → r ∉ pre) →
  for_loop (add_gaps_step add) (pre ++ rest)
           (imap (λ i r, (length pre + i, r)%nat) q)
  = Returns (pre ++ ((λ r, if decide (r ∈ rest) then r else add) <$> q)).
Proof.
  induction q as [|res q IH]; intros pre rest Hnd Hadd Hsub Hdone.
  - apply sublist_nil_r in Hsub as ->. done.
  - rewrite imap_cons. cbn [for_loop]. rewrite Nat.add_0_r, fmap_cons.
    assert (add ∉ present q) as Hadd'.
    { intros Hin. apply Hadd. unfold present in *. rewrite filter_cons.
      case_decide; [by right|done]. }
    assert (∀ r, r ∈ present q → r ∈ present (res :: q)) as Hin_q.
    { intros r Hr. unfold present in *. rewrite filter_cons.
      case_decide; [by right|done]. }
    assert (∀ x, imap ((λ i r, (length pre + i, r)%nat) ∘ Datatypes.S) q
                 = imap (λ i r, (length (pre ++ [x]) + i, r)%nat) q) as Himap.
    { intros x. apply imap_ext. intros i r _. simpl.
      rewrite length_app. simpl. f_equal. lia. }
    destruct (present_step _ _ _ Hnd Hsub)
      as (Hnd' & [[Hres Hsub']|(Hnull & Hq & tp' & -> & Htp' & Hsub')]).
    + assert (add_gaps_step add (pre ++ rest) (length pre, res)
              = Returns ((pre ++ [add]) ++ rest)) as ->.
      { unfold add_gaps_step. rewrite <-list_insert_at_length.
        destruct (decide (res = "null")); [done|].
        rewrite decide_True; [done|].
        intros [Hin|Hin]%elem_of_app; [|done].
        apply (Hdone res); [|done]. unfold present. rewrite filter_cons.
        rewrite decide_True by done. by left. }
      step_bind. rewrite (Himap add), IH; [|done..|].
      * rewrite decide_False by done. by rewrite <-app_assoc.
      * intros r Hr [Hin| ->%list_elem_of_singleton]%elem_of_app; [|done].
        by apply (Hdone r); [apply Hin_q|].
    + assert (add_gaps_step add (pre ++ res :: tp') (length pre, res)
              = Returns ((pre ++ [res]) ++ tp')) as ->.
      { unfold add_gaps_step. rewrite decide_False by done.
        rewrite decide_False
          by (intros Hn; apply Hn, elem_of_app; right; by left).
        rewrite (proj2 (getitem_nat (pre ++ res :: tp') (length pre) res))
          by apply list_lookup_middle, eq_refl.
        step_bind. rewrite decide_False by (by intros ?).
        by rewrite <-app_assoc. }
      step_bind. rewrite (Himap res), IH; [|done..|].
      * rewrite decide_True by (by left).
        rewrite marked_ext by done. by rewrite <-app_assoc.
      * intros r Hr [Hin| ->%list_elem_of_singleton]%elem_of_app.
        -- by apply (Hdone r); [apply Hin_q|].
        -- apply Hq. unfold present in Hr.
           by apply list_elem_of_filter in Hr as [_ ?].
Qed.

(** The second pass, for marked positions that leave room for exactly the
    entries of the target. *)
Lemma add_gaps_entries_weave add (marked : list string) : ∀ pre target,
  length (filter (.≠ add) marked) = length target →
  fold_left (add_gaps_entry add)
            (imap (λ i r, (length pre + i, r)%nat) marked) (pre ++ target)
  = pre ++ weave add marked target.
Proof.
  induction marked as [|res marked IH]; intros pre target Hlen; [done|].
  rewrite imap_cons. cbn [fold_left weave]. rewrite Nat.add_0_r.
  change (add_gaps_entry add (pre ++ target) (length pre, res))
    with (if decide (res = add)
          then list_insert_at (length pre) add (pre ++ target)
          else pre ++ target).
  assert (∀ x, imap ((λ i r, (length pre + i, r)%nat) ∘ Datatypes.S) marked
               = imap (λ i r, (length (pre ++ [x]) + i, r)%nat) marked)
    as Himap.
  { intros x. apply imap_ext. intros i r _. simpl.
    rewrite length_app. simpl. f_equal. lia. }
  rewrite filter_cons in Hlen.
  destruct (decide (res = add)) as [->|Hres].
  - rewrite decide_False in Hlen by (by intros ?).
    rewrite list_insert_at_length, (Himap add), IH by done.
    by rewrite <-app_assoc.
  - rewrite decide_True in Hlen by done.
    destruct target as [|x target]; [done|]. simpl in Hlen.
    rewrite (Himap x).
    replace (pre ++ x :: target) with ((pre ++ [x]) ++ target)
      by (by rewrite <-app_assoc).
    rewrite IH by lia. by rewrite <-app_assoc.
Qed.

(** What the two passes give, position by position. *)
Lemma weave_marked add (q : list string) : ∀ tp t,
  NoDup (present q) → add ∉ present q → tp `sublist_of` present q →
  length tp = length t →
  let marked := (λ r, if decide (r ∈ tp) then r else add) <$> q in
  length (filter (.≠ add) marked) = length t
  ∧ length (weave add marked t) = length q
  ∧ (∀ i r, q !! i = Some r → r ∉ tp → weave add marked t !! i = Some add)
  ∧ (∀ i j r, q !! i = Some r → tp !! j = Some r →
       weave add marked t !! i = t !! j).
Proof.
  cbv zeta.
  induction q as [|res q IH]; intros tp t Hnd Hadd Hsub Hlen.
  - apply sublist_nil_r in Hsub as ->. destruct t; [|done].
    repeat split; intros; done.
  - assert (add ∉ present q) as Hadd'.
    { intros Hin. apply Hadd. unfold present in *. rewrite filter_cons.
      case_decide; [by right|done]. }
    rewrite fmap_cons. cbn [weave].
    destruct (present_step _ _ _ Hnd Hsub)
      as (Hnd' & [[Hres Hsub']|(Hnull & Hq & tp' & -> & Htp' & Hsub')]).
    + rewrite decide_False by done. rewrite decide_True by done.
      rewrite filter_cons, decide_False by (by intros ?).
      destruct (IH tp t Hnd' Hadd' Hsub' Hlen) as (Hcount & Hl & Hgap & Hpos).
      split; [done|]. split; [simpl; by rewrite Hl|]. split.
      * intros [|i] r Hr Hr'; simpl in *; [done|by apply (Hgap _ r)].
      * intros [|i] j r Hr Hj; simpl in *.
        -- injection Hr as ->. destruct Hres. by eapply list_elem_of_lookup_2.
        -- by eapply Hpos.
    + rewrite decide_True by (by left).
      assert (res ≠ add) as Hne.
      { intros ->. apply Hadd. unfold present. rewrite filter_cons.
        rewrite decide_True by done. by left. }
      rewrite decide_False by done.
      rewrite filter_cons, decide_True by done.
      destruct t as [|x t]; [done|]. simpl in Hlen.
      rewrite marked_ext by done.
      destruct (IH tp' t Hnd' Hadd' Hsub' ltac:(lia))
        as (Hcount & Hl & Hgap & Hpos).
      split; [simpl; by rewrite Hcount|]. split; [simpl; by rewrite Hl|].
      split.
      * intros [|i] r Hr Hr'; simpl in *.
        -- injection Hr as ->. destruct Hr'. by left.
        -- apply (Hgap _ r); [done|]. intros Hin. apply Hr'. by right.
      * intros [|i] [|j] r Hr Hj; simpl in *.
        -- done.
        -- injection Hr as ->. destruct Htp'. by eapply list_elem_of_lookup_2.
        -- injection Hj as ->. destruct Hq. by eapply list_elem_of_lookup_2.
        -- by eapply Hpos.
Qed.

(** X17.  Where the target positions, as [convert_to_str] reads them, are a
    subsequence of the distinct positions of the query that are not
    missing, and the marker is none of these, [add_gaps] returns a list as
    long as the query: at a query position that is a target position it
    has the entry of [target] for it, at every other query position the
    marker [add]. *)
Theorem add_gaps_aligned (query_pos target_pos target : list pyval)
    (add : string) (q tp t : list string) :
  convert_to_str query_pos "null" = Returns q →
  convert_to_str target_pos "null" = Returns tp →
  convert_to_str target "null" = Returns t →
  length target_pos = length target →
  NoDup (present q) → add ∉ present q → tp `sublist_of` present q →
  ∃ out, add_gaps query_pos target_pos target add = Returns out
    ∧ length out = length q
    ∧ (∀ i r, q !! i = Some r → r ∉ tp → out !! i = Some add)
    ∧ (∀ i j r, q !! i = Some r → tp !! j = Some r → out !! i = t !! j).
Proof.
  intros Hq Htp Ht Hlen Hnd Hadd Hsub.
  assert (length tp = length t) as Hlen'.
  { rewrite (convert_to_str_length _ _ _ Htp).
    by rewrite (convert_to_str_length _ _ _ Ht). }
  destruct (weave_marked add q tp t Hnd Hadd Hsub Hlen')
    as (Hcount & Hl & Hgap & Hpos).
  exists (weave add ((λ r, if decide (r ∈ tp) then r else add) <$> q) t).
  split; [|done].
  unfold add_gaps. rewrite decide_False by (by intros ?).
  rewrite Hq, Htp, Ht. do 3 step_bind.
  assert (for_loop (add_gaps_step add) tp (enumerate q)
          = Returns ((λ r, if decide (r ∈ tp) then r else add) <$> q))
    as ->.
  { apply (add_gaps_loop_marked add q [] tp Hnd Hadd Hsub).
    by intros ? ? ?%elem_of_nil. }
  step_bind.
  assert (fold_left (add_gaps_entry add)
            (enumerate ((λ r, if decide (r ∈ tp) then r else add) <$> q)) t
          = weave add ((λ r, if decide (r ∈ tp) then r else add) <$> q) t)
    as ->.
  { by apply (add_gaps_entries_weave add _ [] t). }
  rewrite decide_False; [done|]. rewrite Hl, length_fmap. by intros ?.
Qed.

End GapFillerProperties.

Lemma add_gaps_aligned_witness :
  ∃ out,
    add_gaps (H := cpython)
      [PyInt 11; PyNaN; PyInt 13; PyInt 14; PyInt 15]
      [PyInt 13; PyInt 15] [PyInt 1; PyInt 2] "-" = Returns out
    ∧ length out = length ["11"; "null"; "13"; "14"; "15"]
    ∧ (∀ i r, ["11"; "null"; "13"; "14"; "15"] !! i = Some r →
         r ∉ ["13"; "15"] → out !! i = Some "-")
    ∧ (∀ i j r, ["11"; "null"; "13"; "14"; "15"] !! i = Some r →
         ["13"; "15"] !! j = Some r → out !! i = ["1"; "2"] !! j).
Proof.
  apply (@add_gaps_aligned cpython).
  - by vm_compute.
  - by vm_compute.
  - by vm_compute.
  - done.
  - by apply (bool_decide_unpack _).
  - by apply (bool_decide_unpack _).
  - apply sublist_cons, sublist_skip, sublist_cons, sublist_skip, sublist_nil.
Defined.

Lemma add_gaps_returns_witness :
  (length [PyInt 1; PyInt 2; PyInt 3] ≤ length ["null"; "1"; "2"; "null"; "3"]
   ≤ length [PyInt 1; PyInt 2; PyInt 3]
     + length [PyInt 11; PyInt 12; PyInt 13; PyInt 14; PyInt 15])%nat.
Proof.
  apply (@add_gaps_returns cpython
           [PyInt 11; PyInt 12; PyInt 13; PyInt 14; PyInt 15]
           [PyInt 12; PyInt 13; PyInt 15] [PyInt 1; PyInt 2; PyInt 3] "null"
           ["null"; "1"; "2"; "null"; "3"]).
  by vm_compute.
Defined.

(** ** Fuzzy regions *)

Section FuzzyRegionsProperties.
Context `{Builtins}.



End FuzzyRegionsProperties.


(** ** Lists kept in files *)

Lemma has_char_app (c : ascii) (s1 s2 : string) :
  has_char c (s1 +:+ s2) = has_char c s1 || has_char c s2.
Proof.
  induction s1 as [|c' s1 IH]; simpl; [done|]. by rewrite IH, orb_assoc.
Qed.

Lemma has_char_concat (c : ascii) (plist : list string) :
  c ≠ ","%char → Forall (λ s, has_char c s = false) plist →
  has_char c (String.concat "," plist) = false.
Proof.
  intros Hc. induction 1 as [|x l Hx Hl IH]; [done|].
  destruct l as [|y l]; [done|].
  change (String.concat "," (x :: y :: l))
    with (x +:+ "," +:+ String.concat "," (y :: l)).
  rewrite !has_char_app, Hx, IH. simpl.
  rewrite bool_decide_eq_false_2; [done|]. by intros ?.
Qed.

Lemma universal_newlines_plain (s : string) :
  has_char CR s = false → universal_newlines s = s.
Proof.
  induction s as [|c s IH]; [done|]. simpl.
  intros [Hc Hs]%orb_false_iff. apply bool_decide_eq_false in Hc.
  rewrite decide_False by done. by rewrite IH.
Qed.

Lemma lines_of_plain (s : string) :
  has_char LF s = false → s ≠ EmptyString → lines_of s = [s].
Proof.
  induction s as [|c s IH]; [done|]. simpl.
  intros [Hc Hs]%orb_false_iff _. apply bool_decide_eq_false in Hc.
  rewrite decide_False by done.
  destruct s as [|c' s]; [done|]. by rewrite IH.
Qed.

Lemma split_on_plain (sep : ascii) (s : string) :
  has_char sep s = false → split_on sep s = [s].
Proof.
  induction s as [|c s IH]; [done|]. simpl.
  intros [Hc Hs]%orb_false_iff. apply bool_decide_eq_false in Hc.
  rewrite decide_False by done. by rewrite IH.
Qed.

Lemma split_on_app (sep : ascii) (s rest : string) :
  has_char sep s = false →
  split_on sep (s +:+ String sep rest) = s :: split_on sep rest.
Proof.
  induction s as [|c s IH]; simpl.
  - intros _. by rewrite decide_True.
  - intros [Hc Hs]%orb_false_iff. apply bool_decide_eq_false in Hc.
    rewrite decide_False by done. by rewrite IH.
Qed.

(** Splitting undoes joining, for entries without the separator. *)
Lemma split_on_concat (plist : list string) :
  plist ≠ [] → Forall (λ s, has_char "," s = false) plist →
  split_on "," (String.concat "," plist) = plist.
Proof.
  intros Hne. induction 1 as [|x l Hx Hl IH]; [done|].
  destruct l as [|y l]; [by apply split_on_plain|].
  change (String.concat "," (x :: y :: l))
    with (x +:+ String "," (String.concat "," (y :: l))).
  rewrite split_on_app by done. by rewrite IH.
Qed.

Lemma concat_nonempty (plist : list string) :
  last plist ≠ Some EmptyString → plist ≠ [] →
  String.concat "," plist ≠ EmptyString.
Proof.
  destruct plist as [|x [|y l]]; [done| |].
  { intros Hlast _ Hx. apply Hlast. simpl in *. by rewrite Hx. }
  intros _ _.
  change (String.concat "," (x :: y :: l))
    with (x +:+ String "," (String.concat "," (y :: l))).
  by destruct x.
Qed.

(** X19.  A list written by [write_to_file] is read back by [read_file]
    from the same file, provided the list is not empty, no entry holds a
    comma or a line end, and the last entry is not empty.  One empty entry
    at the end of a longer list is lost on the way. *)
Theorem read_file_write_to_file (plist : list string) (file_name : string)
    (fs : file_system) :
  Forall plain_entry plist → plist ≠ [] →
  (last plist ≠ Some EmptyString →
   read_file file_name (write_to_file plist file_name fs) = Returns plist)
  ∧ read_file file_name (write_to_file (plist ++ [EmptyString]) file_name fs)
    = Returns plist.
Proof.
  intros Hplain Hne.
  assert (∀ l, Forall plain_entry l → l ≠ [] →
    String.concat "," l ≠ EmptyString →
    read_file file_name (write_to_file l file_name fs)
    = (final ← getitem l (-1);
       if decide (final = EmptyString) then mret (take (length l - 1) l)
       else mret l)) as Hread.
  { intros l Hl Hl_ne Hcontent.
    unfold read_file, write_to_file, file_system in *.
    rewrite lookup_insert_eq.
    unfold readlines.
    assert (∀ c, Forall (λ s, has_char c s = false) l
                 ∨ c ≠ ","%char ∧ c ≠ LF ∧ c ≠ CR) as Hfree.
    { intros c. destruct (decide (c = ","%char)) as [->|];
        [|destruct (decide (c = LF)) as [->|];
          [|destruct (decide (c = CR)) as [->|]; [|by right]]];
        left; (eapply Forall_impl; [exact Hl|]); by intros s (? & ? & ?). }
    rewrite universal_newlines_plain
      by (apply has_char_concat; [done|by destruct (Hfree CR) as [?|(_ & _ & ?)]]).
    rewrite lines_of_plain;
      [|apply has_char_concat; [done|by destruct (Hfree LF) as [?|(_ & ? & _)]]
       |done].
    rewrite getitem_first. step_bind.
    rewrite split_on_concat; [done|done|].
    by destruct (Hfree ","%char) as [?|(? & _ & _)]. }
  split.
  - intros Hlast. rewrite Hread by (by try apply concat_nonempty).
    destruct (last plist) as [final|] eqn:Hfinal;
      [|by apply last_None in Hfinal].
    rewrite (getitem_last _ _ Hfinal). step_bind.
    rewrite decide_False; [done|]. by intros ->.
  - rewrite Hread.
    + rewrite (getitem_last _ EmptyString) by apply last_snoc. step_bind.
      rewrite decide_True by done. unfold mret, outcome_ret. f_equal.
      rewrite length_app. simpl.
      replace (length plist + 1 - 1)%nat with (length plist) by lia.
      by rewrite take_app_length.
    + apply Forall_app. split; [done|]. by repeat constructor.
    + by destruct plist.
    + destruct plist as [|x [|y l]]; [done|by destruct x|by destruct x].
Qed.

Lemma read_file_write_to_file_witness :
  read_file "complexes.txt"
    (write_to_file ["P04637:1:50--Q00987:1:100_0"; "P12345:3:9--P54321:1:7_1"]
                   "complexes.txt" ∅)
  = Returns ["P04637:1:50--Q00987:1:100_0"; "P12345:3:9--P54321:1:7_1"].
Proof.
  apply read_file_write_to_file; [|done|done].
  by repeat constructor.
Defined.
